(** * A generic finite-state-machine engine (fsm.h), embedded and verified

    The C++ class [FSM<T>] owns a transition table
    ([unordered_map<T, vector<pair<T, function<bool()>>>>]), a table of edge
    counts per state ([unordered_map<T, pair<int32_t, int32_t>>]) and the
    current state.  The embedding below keeps those three fields, models the
    two hash maps as [gmap]s, the vectors as lists, the [int32_t] counters as
    [Z] with their 32-bit wrap-around, exceptions as an explicit outcome, and
    the reference parameters [old_state]/[new_state] as a pair that is passed
    in and handed back.  Transition conditions are closures that read (and
    may change) state outside the engine: they are functions on an external
    world [W]. *)

From stdpp Require Import base option list gmap fin_maps.
From Stdlib Require Import ZArith Lia.

Local Open Scope Z_scope.

(** ** 32-bit signed counters

    The degree counters and the match counter are [int32_t].  C++ defines
    [++x] on them up to [INT32_MAX] and leaves it undefined beyond; the
    model takes the two's-complement wrap-around that compilers produce
    there, and every theorem that depends on a counter says in which range
    it holds. *)

Module Int32.

Definition min_signed : Z := -2147483648.
Definition max_signed : Z := 2147483647.
Definition modulus : Z := 4294967296.

(** The value of a mathematical integer once stored in an [int32_t]. *)
Definition wrap (z : Z) : Z := (z - min_signed) mod modulus + min_signed.

(** [++x] on an [int32_t]. *)
Definition incr (z : Z) : Z := wrap (z + 1).

Definition in_range (z : Z) : Prop := min_signed <= z <= max_signed.

End Int32.

(** ** Exceptions and results *)

Inductive exception : Type :=
  | invalid_state_error
  | ambiguous_state_error.

(** How a call ends: it returns a value or an exception leaves it. *)
Inductive outcome (A : Type) : Type :=
  | Returned (a : A)
  | Threw (e : exception).
Arguments Returned {A} a.
Arguments Threw {A} e.

(** [struct timespec]. *)
Record timespec : Type := mk_timespec { tv_sec : Z; tv_nsec : Z }.

Section Engine.

(** [T] is the template parameter: a hashable type with equality. *)
Context {T : Type} `{Countable T}.
(** Everything outside the engine that a transition condition, the
    scheduler or the clock can read or change. *)
Context {W : Type}.

(** [std::function<bool()>]: run in a world, answers and leaves a world. *)
Definition trans_func_t : Type := W → bool * W.
Definition state_info_t : Type := T * trans_func_t.
Definition transition_table_t : Type := gmap T (list state_info_t).
(** in edges, out edges *)
Definition edges_tbl_t : Type := gmap T (Z * Z).

Record FSM : Type := mk_FSM {
  _trans_tbl : gmap T (list state_info_t);
  _edges_tbl : gmap T (Z * Z);
  _state : T
}.

(** The constructor leaves both tables empty; [_state] is not initialised
    by it, so a fresh machine holds whatever value [garbage] was there. *)
Definition FSM_new (garbage : T) : FSM :=
  {| _trans_tbl := ∅; _edges_tbl := ∅; _state := garbage |}.

(** [m[k]] of an [unordered_map]: a missing key is first inserted with a
    value-initialised entry. *)
Definition subscript {V : Type} (dflt : V) (m : gmap T V) (k : T) : gmap T V * V :=
  match m !! k with
  | Some v => (m, v)
  | None => (<[k := dflt]> m, dflt)
  end.

(** [if (m.find(k) == m.end()) m.emplace(k, v);] *)
Definition emplace_absent {V : Type} (m : gmap T V) (k : T) (v : V) : gmap T V :=
  match m !! k with
  | Some _ => m
  | None => <[k := v]> m
  end.

(** [std::any_of(vec.begin(), vec.end(), [&](si) { return si.first == next_state; })] *)
Definition any_of_first (next_state : T) (vec : list state_info_t) : bool :=
  existsb (λ si, bool_decide (si.1 = next_state)) vec.

Definition register_transition (f : FSM) (pre_state next_state : T)
    (pred : trans_func_t) : bool * FSM :=
  if bool_decide (pre_state = next_state) then (false, f)
  else
    let '(tbl1, next_si_vec) := subscript [] (_trans_tbl f) pre_state in
    if any_of_first next_state next_si_vec then
      (false, {| _trans_tbl := tbl1; _edges_tbl := _edges_tbl f; _state := _state f |})
    else
      let tbl2 := <[pre_state := next_si_vec ++ [(next_state, pred)]]> tbl1 in
      let e1 := emplace_absent (_edges_tbl f) pre_state (0, 0) in
      let e2 := emplace_absent e1 next_state (0, 0) in
      let '(e3, (pin, pout)) := subscript (0, 0) e2 pre_state in
      let e4 := <[pre_state := (pin, Int32.incr pout)]> e3 in
      let '(e5, (nin, nout)) := subscript (0, 0) e4 next_state in
      let e6 := <[next_state := (Int32.incr nin, nout)]> e5 in
      (true, {| _trans_tbl := tbl2; _edges_tbl := e6; _state := _state f |}).

Definition state (f : FSM) : T := _state f.

Definition set_state (f : FSM) (init_state : T) : FSM :=
  {| _trans_tbl := _trans_tbl f; _edges_tbl := _edges_tbl f; _state := init_state |}.

Definition is_terminated_state (f : FSM) (st : T) : bool :=
  match _edges_tbl f !! st with
  | Some (_, out_edges) => out_edges =? 0
  | None => false
  end.

(** The reference parameters [old_state] and [new_state] of the trigger
    functions: the caller's two variables, before and after the call. *)
Record out_params : Type := mk_out { old_state : T; new_state : T }.

(** What a trigger call leaves behind: how it ended, the machine, the
    caller's two variables and the world. *)
Record result : Type := mk_result {
  res_outcome : outcome bool;
  res_fsm : FSM;
  res_out : out_params;
  res_world : W
}.

(** The [for] loop of [try_trigger] over the edges of the current state.
    [None] stands for the [throw ambiguous_state_error()] inside the
    loop; [Some (cnt, tmp_new_state)] for falling out of the loop. *)
Fixpoint scan_edges (edges : list state_info_t) (cnt : Z) (tmp_new_state : T)
    (w : W) : option (Z * T) * W :=
  match edges with
  | [] => (Some (cnt, tmp_new_state), w)
  | next_si :: rest =>
      let '(b, w1) := next_si.2 w in
      let cnt1 := if b then Int32.incr cnt else cnt in
      let tmp1 := if b then next_si.1 else tmp_new_state in
      if 1 <? cnt1 then (None, w1)
      else scan_edges rest cnt1 tmp1 w1
  end.

Definition try_trigger (f : FSM) (out : out_params) (w : W) : result :=
  if is_terminated_state f (_state f) then
    mk_result (Returned true) f (mk_out (_state f) (_state f)) w
  else
    match _trans_tbl f !! _state f with
    | None => mk_result (Threw invalid_state_error) f out w
    | Some edges =>
        match scan_edges edges 0 (_state f) w with
        | (None, w1) => mk_result (Threw ambiguous_state_error) f out w1
        | (Some (cnt, tmp_new_state), w1) =>
            let changed := negb (cnt =? 0) in
            if cnt =? 1 then
              mk_result (Returned changed)
                {| _trans_tbl := _trans_tbl f; _edges_tbl := _edges_tbl f;
                   _state := tmp_new_state |}
                (mk_out (_state f) tmp_new_state) w1
            else mk_result (Returned changed) f out w1
        end
    end.

(** *** The polling wrappers

    [trigger] and [timed_trigger] poll [try_trigger].  Between polls they
    call [std::this_thread::yield()], during which the rest of the program
    may change the world, and [timed_trigger] reads the clock with
    [clock_gettime(CLOCK_REALTIME, &cur_time)], which returns a status
    (0 on success) and fills the buffer.  Both come from the platform and
    are parameters here.  The loops need not end, so they carry fuel:
    [None] means the fuel ran out before the call came back. *)
Section Polling.

Variable yield : W → W.
Variable clock_gettime : W → timespec → Z * timespec * W.

Fixpoint trigger (fuel : nat) (f : FSM) (out : out_params) (w : W) : option result :=
  match fuel with
  | O => None
  | S fuel' =>
      let r := try_trigger f out w in
      match res_outcome r with
      | Returned false =>
          trigger fuel' (res_fsm r) (res_out r) (yield (res_world r))
      | _ => Some r
      end
  end.

Definition is_timeout_fn (abs_time cur_time : timespec) : bool :=
  (tv_sec cur_time >? tv_sec abs_time)
  || ((tv_sec cur_time =? tv_sec abs_time) && (tv_nsec cur_time >=? tv_nsec abs_time)).

(** One round of the [do { ... } while (!is_timeout_fn(...))] loop:
    either the call is over ([inl]) or the loop goes round again with
    the machine, the caller's variables, the world and [cur_time]. *)
Definition poll_once (abs_time : timespec) (f : FSM) (out : out_params) (w : W)
    (cur_time : timespec) : result + (FSM * out_params * W * timespec) :=
  let r := try_trigger f out (yield w) in
  match res_outcome r with
  | Returned false =>
      let '(rc, cur1, w2) := clock_gettime (res_world r) cur_time in
      if negb (rc =? 0) then
        inl (mk_result (Returned false) (res_fsm r) (res_out r) w2)
      else if negb (is_timeout_fn abs_time cur1) then
        inr (res_fsm r, res_out r, w2, cur1)
      else inl (mk_result (Returned false) (res_fsm r) (res_out r) w2)
  | _ => inl r
  end.

Fixpoint timed_loop (fuel : nat) (abs_time : timespec) (f : FSM) (out : out_params)
    (w : W) (cur_time : timespec) : option result :=
  match fuel with
  | O => None
  | S fuel' =>
      match poll_once abs_time f out w cur_time with
      | inl r => Some r
      | inr (f1, out1, w1, cur1) => timed_loop fuel' abs_time f1 out1 w1 cur1
      end
  end.

Definition timed_trigger (fuel : nat) (f : FSM) (out : out_params) (w : W)
    (abs_time : timespec) : option result :=
  let r := try_trigger f out w in
  match res_outcome r with
  | Returned false =>
      timed_loop fuel abs_time (res_fsm r) (res_out r) (res_world r) (mk_timespec 0 0)
  | _ => Some r
  end.

(** Every machine the public operations can produce. *)
Inductive reachable : FSM → Prop :=
  | reach_new garbage : reachable (FSM_new garbage)
  | reach_register f pre_state next_state pred :
      reachable f → reachable (register_transition f pre_state next_state pred).2
  | reach_set_state f init_state :
      reachable f → reachable (set_state f init_state)
  | reach_try_trigger f out w :
      reachable f → reachable (res_fsm (try_trigger f out w))
  | reach_trigger fuel f out w r :
      reachable f → trigger fuel f out w = Some r → reachable (res_fsm r)
  | reach_timed_trigger fuel f out w abs_time r :
      reachable f → timed_trigger fuel f out w abs_time = Some r →
      reachable (res_fsm r).

(** [n] rounds of the loop of [timed_trigger] in a row that all went
    round again, and where they left the loop variables. *)
Fixpoint idle_polls (n : nat) (abs_time : timespec) (f : FSM) (out : out_params)
    (w : W) (cur_time : timespec) : option (FSM * out_params * W * timespec) :=
  match n with
  | O => Some (f, out, w, cur_time)
  | S n' =>
      match poll_once abs_time f out w cur_time with
      | inl _ => None
      | inr (f1, out1, w1, cur1) => idle_polls n' abs_time f1 out1 w1 cur1
      end
  end.

(** The [n+1]-th of a row of [try_trigger] calls with a [yield] between
    one call and the next. *)
Fixpoint nth_try_trigger (n : nat) (f : FSM) (out : out_params) (w : W) : result :=
  match n with
  | O => try_trigger f out w
  | S n' =>
      let r := try_trigger f out w in
      nth_try_trigger n' (res_fsm r) (res_out r) (yield (res_world r))
  end.

End Polling.

(** The current time has reached or passed the deadline. *)
Definition deadline_reached (abs_time cur_time : timespec) : Prop :=
  tv_sec abs_time < tv_sec cur_time
  ∨ (tv_sec cur_time = tv_sec abs_time ∧ tv_nsec abs_time <= tv_nsec cur_time).

(** *** The edge set and the topology summary *)

(** The registered edges as (source, target) pairs. *)
Definition edges_from (entry : T * list state_info_t) : list (T * T) :=
  (λ si : state_info_t, (entry.1, si.1)) <$> entry.2.

Definition registered_edges (f : FSM) : list (T * T) :=
  map_to_list (_trans_tbl f) ≫= edges_from.

Definition out_count (f : FSM) (s : T) : nat :=
  length (filter (λ e : T * T, e.1 = s) (registered_edges f)).

Definition in_count (f : FSM) (s : T) : nat :=
  length (filter (λ e : T * T, e.2 = s) (registered_edges f)).

(** What the topology summary should hold for [s], given the counts. *)
Definition summary_of (conv : nat → Z) (n_in n_out : nat) : option (Z * Z) :=
  if bool_decide (n_in + n_out = 0)%nat then None
  else Some (conv n_in, conv n_out).

(** The summary mirrors the edge set at [s]: [s] has an entry iff it is
    source or target of an edge, and the entry holds the two counts. *)
Definition mirrors_at (f : FSM) (s : T) : Prop :=
  _edges_tbl f !! s = summary_of Z.of_nat (in_count f s) (out_count f s).

Definition mirrors (f : FSM) : Prop := ∀ s, mirrors_at f s.

(** The same with the counts as the [int32_t] counters hold them. *)
Definition mirrors32 (f : FSM) : Prop :=
  ∀ s, _edges_tbl f !! s
       = summary_of (λ n, Int32.wrap (Z.of_nat n)) (in_count f s) (out_count f s).

(** The current state has registered outgoing edges. *)
Definition has_out_edges (f : FSM) (edges : list state_info_t) : Prop :=
  _trans_tbl f !! _state f = Some edges ∧ edges ≠ [].

(** An edge [source → target] is registered. *)
Definition edge_registered (f : FSM) (source target : T) : Prop :=
  ∃ vec, _trans_tbl f !! source = Some vec ∧ target ∈ vec.*1.

(** *** One evaluation pass *)

(** All conditions of [edges] evaluated in registration order, each in
    the world the previous one left: the answers and the last world. *)
Fixpoint eval_preds (edges : list state_info_t) (w : W) : list bool * W :=
  match edges with
  | [] => ([], w)
  | si :: rest =>
      let '(b, w1) := si.2 w in
      let '(bs, w2) := eval_preds rest w1 in
      (b :: bs, w2)
  end.

Definition count_true (bs : list bool) : nat := length (filter (λ b, b = true) bs).

(** The machine an accepted registration of [s → t] leaves: the edge is
    appended to the vector of [s], the out-degree of [s] and the in-degree
    of [t] are incremented, counting from (0, 0) where there was no entry. *)
Definition registered (f : FSM) (s t : T) (pred : trans_func_t) : FSM :=
  let src := default (0, 0) (_edges_tbl f !! s) in
  let tgt := default (0, 0) (_edges_tbl f !! t) in
  {| _trans_tbl := <[s := default [] (_trans_tbl f !! s) ++ [(t, pred)]]> (_trans_tbl f);
     _edges_tbl := <[t := (Int32.incr tgt.1, tgt.2)]>
                     (<[s := (src.1, Int32.incr src.2)]> (_edges_tbl f));
     _state := _state f |}.

(** The machine built by a sequence of registrations on a fresh one. *)
Definition build (garbage : T) (regs : list (T * T * trans_func_t)) : FSM :=
  fold_left (λ f '(pre_state, next_state, pred),
               (register_transition f pre_state next_state pred).2)
    regs (FSM_new garbage).

(** A condition that always gives [b] and leaves the world alone. *)
Definition always (b : bool) : trans_func_t := λ w, (b, w).

End Engine.

(** ** Worked machines

    States are numbers; the world is a log of the conditions that ran, or
    a clock tick count. *)

Definition st_A : nat := 0%nat.
Definition st_B : nat := 1%nat.
Definition st_C : nat := 2%nat.
Definition st_D : nat := 3%nat.
(** A state that is never registered. *)
Definition st_W : nat := 9%nat.

(** A condition that answers [b] and writes its [id] to the log. *)
Definition logs (id : nat) (b : bool) : @trans_func_t (list nat) :=
  λ w, (b, w ++ [id]).

Definition ex_out : @out_params nat := mk_out st_W st_W.

(** A→B, A→C, A→D, in this order, with the given answers; current state A. *)
Definition ex_edges (b1 b2 b3 : bool) : list (@state_info_t nat (list nat)) :=
  [(st_B, logs 1 b1); (st_C, logs 2 b2); (st_D, logs 3 b3)].

Definition ex_regs (b1 b2 b3 : bool) : list (nat * nat * @trans_func_t (list nat)) :=
  [(st_A, st_B, logs 1 b1); (st_A, st_C, logs 2 b2); (st_A, st_D, logs 3 b3)].

Definition ex_machine (b1 b2 b3 : bool) : @FSM nat _ _ (list nat) :=
  set_state (build st_W (ex_regs b1 b2 b3)) st_A.

(** The platform of the timed examples: the world is the number of ticks,
    every [yield] takes one tick, and the clock reads the ticks as seconds
    until tick 5, from which on it fails. *)
Definition ex_yield : nat → nat := S.

Definition ex_clock_gettime (w : nat) (cur_time : timespec) : Z * timespec * nat :=
  if (w <? 5)%nat then (0, mk_timespec (Z.of_nat w) 0, w) else (-1, cur_time, w).

(** A condition that holds from tick [k] on. *)
Definition from_tick (k : nat) : @trans_func_t nat := λ w, ((k <=? w)%nat, w).

(** A→B, guarded by [from_tick k]; current state A. *)
Definition ex_timed (k : nat) : @FSM nat _ _ nat :=
  set_state (build st_W [(st_A, st_B, from_tick k)]) st_A.


(** ** Further notions for the blocking trigger, the table and the clock *)

Section EngineMore.

Context {T : Type} `{Countable T} {W : Type}.

(** The shape registration gives the transition table: no vector is
    empty, none holds its own source as a target, none holds a target
    twice. *)
Definition table_wf (f : @FSM T _ _ W) : Prop :=
  ∀ s vec, _trans_tbl f !! s = Some vec → vec ≠ [] ∧ (s ∉ vec.*1) ∧ NoDup (vec.*1).

(** What a trigger call may do to the machine: nothing to the two tables,
    and to the current state nothing or a move to a registered target of
    it. *)
Definition moved_along_edge (f f' : @FSM T _ _ W) : Prop :=
  _trans_tbl f' = _trans_tbl f ∧ _edges_tbl f' = _edges_tbl f
  ∧ (_state f' = _state f ∨ edge_registered f (_state f) (_state f')).

(** [n] rounds of the loop of [trigger] in a row whose [try_trigger]
    returned false, and the world the last [yield] left. *)
Fixpoint idle_attempts (yield : W → W) (n : nat) (f : @FSM T _ _ W)
    (out : @out_params T) (w : W) : option W :=
  match n with
  | O => Some w
  | S n' =>
      let r := try_trigger f out w in
      match res_outcome r with
      | Returned false => idle_attempts yield n' (res_fsm r) (res_out r) (yield (res_world r))
      | _ => None
      end
  end.

(** A condition that leaves the world as it found it. *)
Definition pure_cond (pred : @trans_func_t W) : Prop := ∀ w, (pred w).2 = w.

End EngineMore.

(** A [timespec] as a number of nanoseconds, and the normal form in which
    [clock_gettime] gives it. *)
Definition nanoseconds (t : timespec) : Z := tv_sec t * 1000000000 + tv_nsec t.

Definition normalised (t : timespec) : Prop := 0 <= tv_nsec t < 1000000000.

(** A→B with a condition that never holds; current state A. *)
Definition ex_blocked : @FSM nat _ _ nat :=
  set_state (build st_W [(st_A, st_B, always false)]) st_A.

(** A→B and A→C, both from tick [k] on; current state A. *)
Definition ex_overlap (k : nat) : @FSM nat _ _ nat :=
  set_state (build st_W [(st_A, st_B, from_tick k); (st_A, st_C, from_tick k)]) st_A.


(** * Facts about the engine *)

(** ** Counter arithmetic *)

Lemma int32_wrap_in_range (z : Z) : Int32.in_range z → Int32.wrap z = z.
Proof.
  unfold Int32.in_range, Int32.wrap, Int32.min_signed, Int32.max_signed, Int32.modulus.
  intros Hz. rewrite Z.mod_small; lia.
Qed.

Lemma int32_incr_wrap (z : Z) : Int32.incr (Int32.wrap z) = Int32.wrap (z + 1).
Proof.
  unfold Int32.incr, Int32.wrap.
  replace ((z - Int32.min_signed) `mod` Int32.modulus + Int32.min_signed + 1 - Int32.min_signed)
    with ((z - Int32.min_signed) `mod` Int32.modulus + 1) by lia.
  rewrite Zplus_mod_idemp_l.
  by replace (z + 1 - Int32.min_signed) with (z - Int32.min_signed + 1) by lia.
Qed.

Lemma int32_incr_small (z : Z) :
  Int32.min_signed <= z < Int32.max_signed → Int32.incr z = z + 1.
Proof.
  intros Hz. unfold Int32.incr. apply int32_wrap_in_range.
  unfold Int32.in_range, Int32.min_signed, Int32.max_signed in *. lia.
Qed.

Section EngineFacts.

Context {T : Type} `{Countable T} {W : Type}.

Implicit Types (f : @FSM T _ _ W) (s t : T) (w : W) (out : @out_params T).
Implicit Types (edges vec pre post : list (@state_info_t T W)).
Implicit Types (si : @state_info_t T W) (pred : @trans_func_t W).

(** ** Registration *)

Lemma any_of_first_elem t vec : any_of_first t vec = true ↔ t ∈ vec.*1.
Proof.
  unfold any_of_first. induction vec as [|si vec IH]; simpl.
  - split; [discriminate | intros Hin; inversion Hin].
  - rewrite orb_true_iff, IH, bool_decide_eq_true, elem_of_cons.
    split; (intros [Heq|Hin]; [by left | by right]).
Qed.

Lemma any_of_first_edge_registered f s t :
  any_of_first t (default [] (_trans_tbl f !! s)) = true ↔ edge_registered f s t.
Proof.
  rewrite any_of_first_elem. unfold edge_registered.
  destruct (_trans_tbl f !! s) as [vec|]; simpl.
  - split; [eauto | intros (vec' & [= <-] & Hin); done].
  - split; [intros Hin; inversion Hin | intros (vec' & [=] & _)].
Qed.

(** A rejected registration hands the machine back as it was. *)
Lemma register_transition_reject f s t pred :
  s = t ∨ edge_registered f s t → register_transition f s t pred = (false, f).
Proof.
  intros Hrej. unfold register_transition. case_bool_decide as Hst; [done|].
  destruct Hrej as [?|Hreg]; [done|].
  pose proof (proj2 (any_of_first_edge_registered f s t) Hreg) as Hany.
  unfold subscript. destruct (_trans_tbl f !! s) as [vec|] eqn:Hvec; simpl in Hany.
  - rewrite Hany. by destruct f.
  - discriminate.
Qed.

Lemma register_transition_accept f s t pred :
  s ≠ t → ¬ edge_registered f s t →
  register_transition f s t pred = (true, registered f s t pred).
Proof.
  intros Hst Hnew. unfold register_transition, registered.
  rewrite bool_decide_eq_false_2 by done.
  rewrite <- any_of_first_edge_registered in Hnew. apply not_true_is_false in Hnew.
  unfold subscript at 1.
  destruct (_trans_tbl f !! s) as [vec|] eqn:Hvec; simpl in Hnew |- *; rewrite ?Hnew.
  all: unfold emplace_absent, subscript.
  all: destruct (_edges_tbl f !! s) as [[si so]|] eqn:Hs;
    destruct (_edges_tbl f !! t) as [[ti to]|] eqn:Ht; simplify_map_eq; simpl.
  all: f_equal; f_equal; rewrite ?insert_insert_eq; try reflexivity.
  all: apply map_eq; intros k;
    destruct (decide (k = s)), (decide (k = t)); by simplify_map_eq.
Qed.

(** ** The edge set under registration *)

Lemma registered_edges_registered f s t pred :
  registered_edges (registered f s t pred) ≡ₚ (s, t) :: registered_edges f.
Proof.
  unfold registered_edges, registered; simpl.
  destruct (_trans_tbl f !! s) as [vec|] eqn:Hvec; simpl.
  - rewrite <- insert_delete_eq.
    rewrite map_to_list_insert by apply lookup_delete_eq.
    rewrite <- (map_to_list_delete _ _ _ Hvec).
    rewrite !bind_cons. unfold edges_from at 1 3; simpl.
    rewrite fmap_app; simpl.
    rewrite <- app_assoc. simpl. symmetry. apply Permutation_middle.
  - rewrite map_to_list_insert by done. by rewrite bind_cons.
Qed.

Lemma out_count_registered f s t pred x :
  out_count (registered f s t pred) x
  = if decide (x = s) then S (out_count f x) else out_count f x.
Proof.
  unfold out_count. rewrite registered_edges_registered, filter_cons; simpl.
  destruct (decide (s = x)), (decide (x = s)); simpl; congruence.
Qed.

Lemma in_count_registered f s t pred x :
  in_count (registered f s t pred) x
  = if decide (x = t) then S (in_count f x) else in_count f x.
Proof.
  unfold in_count. rewrite registered_edges_registered, filter_cons; simpl.
  destruct (decide (t = x)), (decide (x = t)); simpl; congruence.
Qed.

(** The edges out of [s] are the entries of its vector. *)
Lemma out_count_lookup f s :
  out_count f s = length (default [] (_trans_tbl f !! s)).
Proof.
  unfold out_count, registered_edges.
  assert (Hother : ∀ l : list (T * list (@state_info_t T W)),
            s ∉ l.*1 → filter (λ e : T * T, e.1 = s) (l ≫= edges_from) = []).
  { induction l as [|[k vec] l IH]; [done|].
    rewrite fmap_cons, not_elem_of_cons, bind_cons, filter_app. simpl.
    intros [Hk Hl]. simpl in Hk. rewrite IH by done. rewrite app_nil_r.
    unfold edges_from; simpl. induction vec as [|si vec IHv]; [done|].
    rewrite fmap_cons, filter_cons_False; [done | simpl; congruence]. }
  destruct (_trans_tbl f !! s) as [vec|] eqn:Hvec; simpl.
  - rewrite <- (map_to_list_delete _ _ _ Hvec), bind_cons, filter_app.
    rewrite Hother.
    + rewrite app_nil_r. unfold edges_from; simpl. clear Hvec.
      induction vec as [|si vec IHv]; [done|].
      rewrite fmap_cons, filter_cons_True by done. simpl.
      by f_equal.
    + intros ([k v] & -> & Hin)%list_elem_of_fmap.
      apply elem_of_map_to_list in Hin. simpl in Hin.
      by rewrite lookup_delete_eq in Hin.
  - rewrite Hother; [done|].
    intros ([k v] & -> & Hin)%list_elem_of_fmap.
    apply elem_of_map_to_list in Hin. simpl in *. congruence.
Qed.

Lemma count_le_edges f s :
  (in_count f s ≤ length (registered_edges f)
   ∧ out_count f s ≤ length (registered_edges f))%nat.
Proof. unfold in_count, out_count. split; apply length_filter. Qed.

(** ** The topology summary under registration *)

Lemma summary_of_default32 (a b : nat) :
  default (0, 0) (summary_of (λ n, Int32.wrap (Z.of_nat n)) a b)
  = (Int32.wrap (Z.of_nat a), Int32.wrap (Z.of_nat b)).
Proof.
  unfold summary_of. case_bool_decide as Hab; [|done].
  assert (a = 0%nat ∧ b = 0%nat) as [-> ->] by lia. reflexivity.
Qed.

Lemma int32_incr_of_nat (n : nat) :
  Int32.incr (Int32.wrap (Z.of_nat n)) = Int32.wrap (Z.of_nat (S n)).
Proof. by rewrite int32_incr_wrap, Nat2Z.inj_succ. Qed.

Lemma summary_of_pos conv (a b : nat) :
  (0 < a + b)%nat → summary_of conv a b = Some (conv a, conv b).
Proof. intros Hab. unfold summary_of. rewrite bool_decide_eq_false_2; [done | lia]. Qed.

Lemma registered_mirrors32 f s t pred :
  s ≠ t → mirrors32 f → mirrors32 (registered f s t pred).
Proof.
  intros Hst Hf x. rewrite out_count_registered, in_count_registered.
  unfold registered; simpl. rewrite !Hf, !summary_of_default32; simpl.
  rewrite !int32_incr_of_nat.
  destruct (decide (x = t)) as [->|Hxt].
  - rewrite lookup_insert_eq. rewrite decide_False by done.
    by rewrite summary_of_pos by lia.
  - rewrite lookup_insert_ne by done. destruct (decide (x = s)) as [->|Hxs].
    + rewrite lookup_insert_eq. by rewrite summary_of_pos by lia.
    + rewrite lookup_insert_ne by done. apply Hf.
Qed.

Lemma mirrors32_tables f f' :
  _trans_tbl f' = _trans_tbl f → _edges_tbl f' = _edges_tbl f →
  mirrors32 f → mirrors32 f'.
Proof.
  intros Htbl Hedges Hf x. unfold in_count, out_count, registered_edges.
  rewrite Htbl, Hedges. apply Hf.
Qed.

(** Registration either rejects and changes nothing, or accepts. *)
Lemma register_transition_cases f s t pred :
  register_transition f s t pred = (false, f)
  ∨ (s ≠ t ∧ ¬ edge_registered f s t
     ∧ register_transition f s t pred = (true, registered f s t pred)).
Proof.
  destruct (decide (s = t)) as [Hst|Hst].
  { left. apply register_transition_reject. by left. }
  destruct (any_of_first t (default [] (_trans_tbl f !! s))) eqn:Hany.
  - left. apply register_transition_reject. right.
    by apply any_of_first_edge_registered.
  - right. assert (¬ edge_registered f s t) as Hnew.
    { rewrite <- any_of_first_edge_registered. congruence. }
    auto using register_transition_accept.
Qed.

(** ** The trigger functions leave the two tables alone *)

Lemma try_trigger_tables f out w :
  _trans_tbl (res_fsm (try_trigger f out w)) = _trans_tbl f
  ∧ _edges_tbl (res_fsm (try_trigger f out w)) = _edges_tbl f.
Proof. unfold try_trigger. repeat case_match; done. Qed.

(** A call that reports "unchanged" hands back the machine and the
    caller's variables as they were. *)
Lemma try_trigger_unchanged_frame f out w :
  res_outcome (try_trigger f out w) = Returned false →
  res_fsm (try_trigger f out w) = f ∧ res_out (try_trigger f out w) = out.
Proof.
  unfold try_trigger. repeat case_match; simpl; try done.
  intros [= Hcnt]. apply negb_false_iff, Z.eqb_eq in Hcnt. by subst.
Qed.

(** ** One evaluation pass *)

Lemma eval_preds_cons si edges w :
  eval_preds (si :: edges) w
  = ((si.2 w).1 :: (eval_preds edges (si.2 w).2).1, (eval_preds edges (si.2 w).2).2).
Proof.
  simpl. destruct (si.2 w) as [b w1]. simpl. by destruct (eval_preds edges w1).
Qed.

Lemma eval_preds_cons_eq si edges w b w1 :
  si.2 w = (b, w1) →
  eval_preds (si :: edges) w = (b :: (eval_preds edges w1).1, (eval_preds edges w1).2).
Proof. intros Hsi. rewrite eval_preds_cons. by rewrite Hsi. Qed.

Lemma count_true_cons b bs :
  count_true (b :: bs) = if b then S (count_true bs) else count_true bs.
Proof. unfold count_true. rewrite filter_cons. by destruct b. Qed.

Lemma count_true_zero_lookup bs i : count_true bs = 0%nat → bs !! i ≠ Some true.
Proof.
  revert i. induction bs as [|b bs IH]; intros i; [by destruct i|].
  rewrite count_true_cons. destruct b; [done|].
  destruct i as [|i]; simpl; [done | auto].
Qed.

(** No condition holds: the loop runs to its end and changes neither
    [cnt] nor [tmp_new_state]. *)
Lemma scan_edges_none_true edges cnt tmp w :
  cnt <= 1 → count_true (eval_preds edges w).1 = 0%nat →
  scan_edges edges cnt tmp w = (Some (cnt, tmp), (eval_preds edges w).2).
Proof.
  intros Hcnt. revert w. induction edges as [|si edges IH]; intros w; [done|].
  rewrite eval_preds_cons; simpl. rewrite count_true_cons.
  destruct (si.2 w) as [[] w1]; simpl; [done|]. intros Hzero.
  rewrite (proj2 (Z.ltb_ge 1 cnt)) by done. by apply IH.
Qed.

(** One condition holds: the loop runs to its end with [cnt = 1] and the
    target of that edge. *)
Lemma scan_edges_one_true edges tmp w i si :
  count_true (eval_preds edges w).1 = 1%nat →
  edges !! i = Some si → (eval_preds edges w).1 !! i = Some true →
  scan_edges edges 0 tmp w = (Some (1, si.1), (eval_preds edges w).2).
Proof.
  revert tmp w i. induction edges as [|si0 edges IH]; intros tmp w i; [done|].
  rewrite eval_preds_cons; simpl. rewrite count_true_cons.
  destruct (si0.2 w) as [[] w1]; simpl.
  - intros [= Hzero]. destruct i as [|i]; simpl.
    + intros [= ->] _. change (Int32.incr 0) with 1. simpl.
      by apply scan_edges_none_true.
    + intros _ Hi. by apply count_true_zero_lookup in Hi.
  - intros Hone. destruct i as [|i]; simpl; [done|]. by apply IH.
Qed.

(** Two or more conditions hold: the loop is left at the second one. *)
Lemma scan_edges_two_true edges cnt tmp w :
  cnt = 0 ∨ cnt = 1 →
  2 <= cnt + Z.of_nat (count_true (eval_preds edges w).1) →
  ∃ pre si post w1,
    edges = pre ++ si :: post
    ∧ cnt + Z.of_nat (count_true (eval_preds pre w).1) = 1
    ∧ si.2 (eval_preds pre w).2 = (true, w1)
    ∧ scan_edges edges cnt tmp w = (None, w1).
Proof.
  revert cnt tmp w. induction edges as [|si0 edges IH]; intros cnt tmp w Hcnt.
  { simpl. unfold count_true; simpl. lia. }
  rewrite eval_preds_cons; simpl. rewrite count_true_cons.
  destruct (si0.2 w) as [[] w1] eqn:Hsi0; simpl.
  - destruct Hcnt as [-> | ->].
    + intros Htwo. change (Int32.incr 0) with 1. simpl.
      destruct (IH 1 si0.1 w1) as (pre & si & post & w2 & -> & Hpre & Hsi & Hscan);
        [by right | lia |].
      exists (si0 :: pre), si, post, w2.
      rewrite (eval_preds_cons_eq _ _ _ _ _ Hsi0); simpl.
      rewrite count_true_cons. split_and!; [done | lia | done | done].
    + intros _. change (Int32.incr 1) with 2. simpl.
      by exists [], si0, edges, w1.
  - intros Htwo. assert ((1 <? cnt) = false) as -> by (apply Z.ltb_ge; lia).
    destruct (IH cnt tmp w1) as (pre & si & post & w2 & -> & Hpre & Hsi & Hscan);
      [done | done |].
    exists (si0 :: pre), si, post, w2.
    rewrite (eval_preds_cons_eq _ _ _ _ _ Hsi0); simpl.
    rewrite count_true_cons. by split_and!.
Qed.

(** The loop is never left at its end with [cnt] above 1. *)
Lemma scan_edges_count edges cnt tmp w cnt' tmp' w' :
  cnt = 0 ∨ cnt = 1 →
  scan_edges edges cnt tmp w = (Some (cnt', tmp'), w') →
  cnt' = 0 ∨ cnt' = 1.
Proof.
  revert cnt tmp w. induction edges as [|si edges IH]; intros cnt tmp w Hcnt; simpl.
  { by intros [= <- _ _]. }
  destruct (si.2 w) as [[] w1].
  - destruct Hcnt as [-> | ->].
    + change (Int32.incr 0) with 1. simpl. apply IH. by right.
    + change (Int32.incr 1) with 2. by simpl.
  - destruct Hcnt as [-> | ->]; simpl; apply IH; auto.
Qed.

(** A machine whose summary mirrors its edges does not take a state with
    outgoing edges for a terminated one. *)
Lemma has_out_edges_not_terminated f edges :
  mirrors f → has_out_edges f edges → is_terminated_state f (_state f) = false.
Proof.
  intros Hf [Hedges Hne]. unfold is_terminated_state. rewrite (Hf (_state f)).
  assert (0 < out_count f (_state f))%nat as Hpos.
  { rewrite out_count_lookup, Hedges. destruct edges; [done | simpl; lia]. }
  rewrite summary_of_pos by lia. apply Z.eqb_neq. lia.
Qed.

(** Counters that have not run past [INT32_MAX] hold the counts. *)
Lemma mirrors32_mirrors_at f s :
  mirrors32 f →
  Z.of_nat (in_count f s) <= Int32.max_signed →
  Z.of_nat (out_count f s) <= Int32.max_signed →
  mirrors_at f s.
Proof.
  intros Hf Hin Hout. unfold mirrors_at. rewrite Hf. unfold summary_of.
  case_bool_decide; [done|].
  rewrite !int32_wrap_in_range; [done|..];
    unfold Int32.in_range, Int32.min_signed, Int32.max_signed in *; lia.
Qed.

Lemma build_snoc garbage (regs : list (T * T * @trans_func_t W)) s t pred :
  build garbage (regs ++ [(s, t, pred)])
  = (register_transition (build garbage regs) s t pred).2.
Proof. unfold build. by rewrite fold_left_app. Qed.

Lemma build_mirrors32 garbage (regs : list (T * T * @trans_func_t W)) :
  mirrors32 (build garbage regs)
  ∧ (length (registered_edges (build garbage regs)) ≤ length regs)%nat.
Proof.
  induction regs as [|[[s t] pred] regs [IHm IHl]] using rev_ind.
  - split; [|unfold build, registered_edges; simpl; by rewrite map_to_list_empty].
    intros x. unfold in_count, out_count, registered_edges, build; simpl.
    by rewrite map_to_list_empty, lookup_empty.
  - rewrite build_snoc, length_app; simpl.
    destruct (register_transition_cases (build garbage regs) s t pred)
      as [->|(Hst & _ & ->)]; simpl.
    + split; [done | lia].
    + split; [by apply registered_mirrors32|].
      rewrite registered_edges_registered; simpl. lia.
Qed.

Lemma mirrors_set_state f s : mirrors f → mirrors (set_state f s).
Proof. intros Hf x. apply Hf. Qed.

(** Fewer than 2^31 registrations cannot overflow a counter. *)
Lemma build_mirrors garbage (regs : list (T * T * @trans_func_t W)) :
  Z.of_nat (length regs) <= Int32.max_signed → mirrors (build garbage regs).
Proof.
  intros Hlen x. destruct (build_mirrors32 garbage regs) as [Hm Hl].
  pose proof (count_le_edges (build garbage regs) x) as [Hin Hout].
  apply mirrors32_mirrors_at; [done | lia | lia].
Qed.

(** ** What [try_trigger] does, path by path *)

(** C1. On a machine whose summary mirrors its edges, when the current
    state has registered outgoing edges and two or more of their conditions
    hold in the pass, [try_trigger] throws [ambiguous_state_error] at the
    second one that holds: the edges split as [pre ++ si :: post] with
    exactly one condition of [pre] holding and that of [si] holding, the
    world is the one [si] left (no condition of [post] was run), and the
    machine, its current state included, and the caller's variables are as
    before. *)
Theorem try_trigger_ambiguous f out w edges :
  mirrors f → has_out_edges f edges →
  (2 ≤ count_true (eval_preds edges w).1)%nat →
  ∃ pre si post w1,
    edges = pre ++ si :: post
    ∧ count_true (eval_preds pre w).1 = 1%nat
    ∧ si.2 (eval_preds pre w).2 = (true, w1)
    ∧ try_trigger f out w = mk_result (Threw ambiguous_state_error) f out w1.
Proof.
  intros Hf Hedges Htwo. unfold try_trigger.
  rewrite (has_out_edges_not_terminated f edges Hf Hedges).
  destruct Hedges as [-> _].
  destruct (scan_edges_two_true edges 0 (_state f) w)
    as (pre & si & post & w1 & Hsplit & Hpre & Hsi & Hscan); [by left | lia |].
  exists pre, si, post, w1. rewrite Hscan. split_and!; [done | lia | done | done].
Qed.

(** C5. On a machine whose summary mirrors its edges, when the current
    state has registered outgoing edges and none of their conditions holds
    in the pass, [try_trigger] returns false ("unchanged") and leaves the
    machine and the caller's variables as they were; all conditions were
    run. *)
Theorem try_trigger_no_match f out w edges :
  mirrors f → has_out_edges f edges →
  count_true (eval_preds edges w).1 = 0%nat →
  try_trigger f out w = mk_result (Returned false) f out (eval_preds edges w).2.
Proof.
  intros Hf Hedges Hzero. unfold try_trigger.
  rewrite (has_out_edges_not_terminated f edges Hf Hedges).
  destruct Hedges as [-> _].
  by rewrite scan_edges_none_true.
Qed.

(** C2. On a machine whose summary mirrors its edges, when the current
    state has registered outgoing edges and exactly one of their conditions
    holds in the pass, [try_trigger] returns true, makes that edge's target
    the current state and reports the previous state as old and the target
    as new.  In particular, on a fresh machine, after registering A→B with
    an always-false condition and A→C with an always-true one (both
    accepted) and [set_state(A)], [try_trigger] returns true with old = A
    and new = C, and [state()] is then C. *)
Theorem try_trigger_single_match :
  (∀ f out w edges i si,
     mirrors f → has_out_edges f edges →
     count_true (eval_preds edges w).1 = 1%nat →
     edges !! i = Some si → (eval_preds edges w).1 !! i = Some true →
     try_trigger f out w
     = mk_result (Returned true) (set_state f si.1) (mk_out (_state f) si.1)
         (eval_preds edges w).2)
  ∧ (∀ garbage (A B C : T) out w,
       A ≠ B → A ≠ C → B ≠ C →
       let r1 := register_transition (FSM_new garbage) A B (always false) in
       let r2 := register_transition r1.2 A C (always true) in
       let m := set_state r2.2 A in
       r1.1 = true ∧ r2.1 = true
       ∧ try_trigger m out w = mk_result (Returned true) (set_state m C) (mk_out A C) w
       ∧ state (res_fsm (try_trigger m out w)) = C).
Proof.
  split.
  - intros f out w edges i si Hf Hedges Hone Hi Htrue. unfold try_trigger.
    rewrite (has_out_edges_not_terminated f edges Hf Hedges).
    destruct Hedges as [-> _].
    by rewrite (scan_edges_one_true edges (_state f) w i si).
  - intros garbage A B C out w HAB HAC HBC.
    assert (¬ edge_registered (@FSM_new T _ _ W garbage) A B) as Hnew1.
    { intros (vec & Hvec & _). unfold FSM_new in Hvec; simpl in Hvec.
      by rewrite lookup_empty in Hvec. }
    rewrite (register_transition_accept _ A B (always false)) by done. simpl.
    assert (¬ edge_registered
              (registered (@FSM_new T _ _ W garbage) A B (always false)) A C) as Hnew2.
    { intros (vec & Hvec & Hin). unfold registered, FSM_new in Hvec; simpl in Hvec.
      rewrite lookup_insert_eq, lookup_empty in Hvec. simpl in Hvec.
      injection Hvec as <-. apply list_elem_of_fmap in Hin as ([t p] & -> & Hin).
      apply list_elem_of_singleton in Hin. simpl in *. congruence. }
    rewrite (register_transition_accept _ A C (always true)) by done. simpl.
    assert (try_trigger
              (set_state
                 (registered (registered (@FSM_new T _ _ W garbage) A B (always false))
                    A C (always true)) A) out w
            = mk_result (Returned true)
                (set_state
                   (set_state
                      (registered (registered (FSM_new garbage) A B (always false))
                         A C (always true)) A) C)
                (mk_out A C) w) as Htry.
    { unfold try_trigger, is_terminated_state, registered, set_state, FSM_new; simpl.
      rewrite !lookup_empty; simpl. by simplify_map_eq. }
    by rewrite Htry.
Qed.

(** C4. When the current state is absent from the transition table and is
    not terminated, [try_trigger] throws [invalid_state_error] and leaves
    the machine, its current state included, as it was. *)
Theorem try_trigger_invalid_state f out w :
  _trans_tbl f !! _state f = None →
  is_terminated_state f (_state f) = false →
  try_trigger f out w = mk_result (Threw invalid_state_error) f out w.
Proof. intros Habsent Hterm. unfold try_trigger. by rewrite Hterm, Habsent. Qed.

(** C10. [try_trigger] writes [old_state] and [new_state] exactly when it
    returns true, with the state before and the state after the call; when
    it returns false or throws either exception, the caller's two
    variables and the machine are as they were. *)
Theorem try_trigger_out_params f out w :
  let r := try_trigger f out w in
  (res_outcome r = Returned true
   ∧ res_out r = mk_out (_state f) (_state (res_fsm r)))
  ∨ ((res_outcome r = Returned false
      ∨ res_outcome r = Threw invalid_state_error
      ∨ res_outcome r = Threw ambiguous_state_error)
     ∧ res_out r = out ∧ res_fsm r = f).
Proof.
  unfold try_trigger. simpl.
  destruct (is_terminated_state f (_state f)); [by left|].
  destruct (_trans_tbl f !! _state f) as [edges|]; [|right; auto].
  destruct (scan_edges edges 0 (_state f) w) as [[[cnt tmp]|] w1] eqn:Hscan;
    [|right; auto].
  destruct (scan_edges_count _ _ _ _ _ _ _ (or_introl eq_refl) Hscan) as [-> | ->];
    simpl; [right; auto | by left].
Qed.

(** ** Registration and the terminated states *)

(** C6. [register_transition] returns false and leaves the machine
    (transition table, summary and current state) as it was when source
    and target are the same state or the edge source → target is already
    registered; otherwise it returns true, and from then on the edge is
    registered, so that a second attempt on the same pair is rejected. *)
Theorem register_transition_verdict f s t pred :
  (s = t ∨ edge_registered f s t → register_transition f s t pred = (false, f))
  ∧ (s ≠ t → ¬ edge_registered f s t →
     (register_transition f s t pred).1 = true
     ∧ ∀ pred',
         register_transition (register_transition f s t pred).2 s t pred'
         = (false, (register_transition f s t pred).2)).
Proof.
  split; [apply register_transition_reject|].
  intros Hst Hnew. rewrite register_transition_accept by done. simpl.
  split; [done|]. intros pred'. apply register_transition_reject. right.
  exists (default [] (_trans_tbl f !! s) ++ [(t, pred)]).
  unfold registered; simpl. rewrite lookup_insert_eq. split; [done|].
  rewrite fmap_app. apply elem_of_app. right. simpl. left.
Qed.

(** C7. [is_terminated_state(s)] is true exactly when [s] has an entry in
    the summary whose out-degree is 0; a state without an entry is not
    terminated.  For a machine built by registrations (fewer than 2^31 of
    them, so that no counter has overflowed) this is: [s] is the target of
    an edge and the source of none. *)
Theorem is_terminated_state_iff f s :
  (is_terminated_state f s = true ↔ ∃ n_in, _edges_tbl f !! s = Some (n_in, 0))
  ∧ (_edges_tbl f !! s = None → is_terminated_state f s = false)
  ∧ (∀ garbage regs,
       f = build garbage regs → Z.of_nat (length regs) <= Int32.max_signed →
       (is_terminated_state f s = true
        ↔ out_count f s = 0%nat ∧ (0 < in_count f s)%nat)).
Proof.
  unfold is_terminated_state. split_and!.
  - destruct (_edges_tbl f !! s) as [[n_in n_out]|].
    + rewrite Z.eqb_eq. split; [intros ->; eauto | by intros (? & [= _ ->])].
    + split; [done | by intros (? & [=])].
  - by intros ->.
  - intros garbage regs -> Hlen.
    destruct (build_mirrors32 garbage regs) as [Hm Hl].
    pose proof (count_le_edges (build garbage regs) s) as [Hin Hout].
    rewrite (mirrors32_mirrors_at _ s Hm) by lia.
    unfold summary_of. case_bool_decide as Hzero.
    + split; [done | lia].
    + rewrite Z.eqb_eq. lia.
Qed.

Section PollingFacts.

Variable yield : W → W.
Variable clock_gettime : W → timespec → Z * timespec * W.

Lemma trigger_tables fuel f out w r :
  trigger yield fuel f out w = Some r →
  _trans_tbl (res_fsm r) = _trans_tbl f ∧ _edges_tbl (res_fsm r) = _edges_tbl f.
Proof.
  revert f out w. induction fuel as [|fuel IH]; intros f out w; simpl; [done|].
  pose proof (try_trigger_tables f out w) as [Ht He].
  destruct (res_outcome (try_trigger f out w)) as [[]|e].
  - by intros [= <-].
  - intros Hr. apply IH in Hr. by rewrite <- Ht, <- He.
  - by intros [= <-].
Qed.

Lemma poll_once_tables abs_time f out w cur_time :
  match poll_once yield clock_gettime abs_time f out w cur_time with
  | inl r => _trans_tbl (res_fsm r) = _trans_tbl f ∧ _edges_tbl (res_fsm r) = _edges_tbl f
  | inr (f1, _, _, _) => _trans_tbl f1 = _trans_tbl f ∧ _edges_tbl f1 = _edges_tbl f
  end.
Proof.
  unfold poll_once. pose proof (try_trigger_tables f out (yield w)) as Htbl.
  destruct (res_outcome (try_trigger f out (yield w))) as [[]|e]; try done.
  destruct (clock_gettime _ _) as [[rc cur1] w2].
  destruct (negb (rc =? 0)); [done|]. by destruct (negb (is_timeout_fn _ _)).
Qed.

Lemma timed_loop_tables fuel abs_time f out w cur_time r :
  timed_loop yield clock_gettime fuel abs_time f out w cur_time = Some r →
  _trans_tbl (res_fsm r) = _trans_tbl f ∧ _edges_tbl (res_fsm r) = _edges_tbl f.
Proof.
  revert f out w cur_time.
  induction fuel as [|fuel IH]; intros f out w cur_time; simpl; [done|].
  pose proof (poll_once_tables abs_time f out w cur_time) as Hpoll.
  destruct (poll_once _ _ _ _ _ _ _) as [r'|[[[f1 out1] w1] cur1]].
  - by intros [= <-].
  - intros Hr. apply IH in Hr. destruct Hpoll as [Ht He]. by rewrite <- Ht, <- He.
Qed.

Lemma timed_trigger_tables fuel f out w abs_time r :
  timed_trigger yield clock_gettime fuel f out w abs_time = Some r →
  _trans_tbl (res_fsm r) = _trans_tbl f ∧ _edges_tbl (res_fsm r) = _edges_tbl f.
Proof.
  unfold timed_trigger. pose proof (try_trigger_tables f out w) as [Ht He].
  destruct (res_outcome (try_trigger f out w)) as [[]|e].
  - by intros [= <-].
  - intros Hr. apply timed_loop_tables in Hr. by rewrite <- Ht, <- He.
  - by intros [= <-].
Qed.

(** Whatever the operations, each counter holds its count as an
    [int32_t] holds it. *)
Lemma reachable_mirrors32 f : reachable yield clock_gettime f → mirrors32 f.
Proof.
  induction 1 as [garbage|f s t pred _ IH|f s _ IH|f out w _ IH
                  |fuel f out w r _ IH Hr|fuel f out w abs_time r _ IH Hr].
  - intros x. unfold in_count, out_count, registered_edges, FSM_new; simpl.
    by rewrite map_to_list_empty, lookup_empty.
  - destruct (register_transition_cases f s t pred) as [->|(Hst & _ & ->)];
      [done|]. by apply registered_mirrors32.
  - by apply (mirrors32_tables f).
  - destruct (try_trigger_tables f out w). by apply (mirrors32_tables f).
  - destruct (trigger_tables _ _ _ _ _ Hr). by apply (mirrors32_tables f).
  - destruct (timed_trigger_tables _ _ _ _ _ _ Hr). by apply (mirrors32_tables f).
Qed.

(** C3. When the current state is in the summary with out-degree 0,
    [try_trigger] returns true with old = new = the current state and
    leaves the machine as it was; and so does every later call of a row
    of calls, whatever happens to the world in between. *)
Theorem try_trigger_terminal f n_in :
  _edges_tbl f !! _state f = Some (n_in, 0) →
  (∀ out w,
     try_trigger f out w
     = mk_result (Returned true) f (mk_out (_state f) (_state f)) w)
  ∧ (∀ n out w,
       nth_try_trigger yield n f out w
       = mk_result (Returned true) f (mk_out (_state f) (_state f))
           (Nat.iter n yield w)).
Proof.
  intros Hterm.
  assert (Hcall : ∀ out w,
            try_trigger f out w
            = mk_result (Returned true) f (mk_out (_state f) (_state f)) w).
  { intros out w. unfold try_trigger, is_terminated_state. by rewrite Hterm. }
  split; [done|].
  induction n as [|n IH]; intros out w; simpl; [done|].
  rewrite Hcall; simpl. rewrite IH. by rewrite <- Nat.iter_succ_r.
Qed.

(** So every machine the operations produce mirrors its edges as long as
    it has fewer than 2^31 of them. *)
Lemma reachable_mirrors f :
  reachable yield clock_gettime f →
  Z.of_nat (length (registered_edges f)) <= Int32.max_signed → mirrors f.
Proof.
  intros Hreach Hlen x. pose proof (count_le_edges f x) as [Hin Hout].
  apply mirrors32_mirrors_at; [by apply reachable_mirrors32 | lia | lia].
Qed.

Lemma build_reachable garbage (regs : list (T * T * @trans_func_t W)) :
  reachable yield clock_gettime (build garbage regs).
Proof.
  induction regs as [|[[s t] pred] regs IH] using rev_ind; [constructor|].
  rewrite build_snoc. by constructor.
Qed.

Lemma filter_length_pos {A} (P : A → Prop) `{∀ x, Decision (P x)} (l : list A) :
  (0 < length (filter P l))%nat ↔ ∃ x, x ∈ l ∧ P x.
Proof.
  split.
  - destruct (filter P l) as [|x l'] eqn:Hfl; simpl; [lia|]. intros _.
    assert (x ∈ filter P l) as Hx by (rewrite Hfl; left).
    apply list_elem_of_filter in Hx as [HP Hin]. eauto.
  - intros (x & Hx & HP).
    assert (x ∈ filter P l) as Hin by (by apply list_elem_of_filter).
    destruct (filter P l); [by apply elem_of_nil in Hin | simpl; lia].
Qed.

(** C8. After any sequence of operations the summary mirrors the
    registered edges: for every state whose edge counts an [int32_t] can
    hold, the state has an entry iff it is source or target of an edge, and
    the entry holds the number of edges into it and out of it.  An accepted
    registration appends (target, condition) to the source's vector,
    creates missing entries for source and target as (0, 0), and increments
    the source's out-degree and the target's in-degree, so that both edge
    counts go up by one. *)
Theorem topology_mirrors_edges :
  (∀ f s,
     reachable yield clock_gettime f →
     Z.of_nat (in_count f s) <= Int32.max_signed →
     Z.of_nat (out_count f s) <= Int32.max_signed →
     (is_Some (_edges_tbl f !! s)
      ↔ ∃ e, e ∈ registered_edges f ∧ (e.1 = s ∨ e.2 = s))
     ∧ (∀ n_in n_out, _edges_tbl f !! s = Some (n_in, n_out) →
          n_in = Z.of_nat (in_count f s) ∧ n_out = Z.of_nat (out_count f s)))
  ∧ (∀ f s t pred f',
       register_transition f s t pred = (true, f') →
       let src := default (0, 0) (_edges_tbl f !! s) in
       let tgt := default (0, 0) (_edges_tbl f !! t) in
       _trans_tbl f'
       = <[s := default [] (_trans_tbl f !! s) ++ [(t, pred)]]> (_trans_tbl f)
       ∧ _edges_tbl f'
         = <[t := (Int32.incr tgt.1, tgt.2)]>
             (<[s := (src.1, Int32.incr src.2)]> (_edges_tbl f))
       ∧ (Int32.min_signed <= src.2 < Int32.max_signed → Int32.incr src.2 = src.2 + 1)
       ∧ (Int32.min_signed <= tgt.1 < Int32.max_signed → Int32.incr tgt.1 = tgt.1 + 1)
       ∧ out_count f' s = S (out_count f s)
       ∧ in_count f' t = S (in_count f t)).
Proof.
  split.
  - intros f s Hreach Hin Hout.
    pose proof (mirrors32_mirrors_at f s (reachable_mirrors32 f Hreach) Hin Hout) as Hs.
    unfold mirrors_at, summary_of in Hs. rewrite Hs.
    assert ((0 < in_count f s + out_count f s)%nat
            ↔ ∃ e, e ∈ registered_edges f ∧ (e.1 = s ∨ e.2 = s)) as Hpos.
    { unfold in_count, out_count. split.
      - intros Hsum.
        destruct (decide (0 < length (filter (λ e : T * T, e.2 = s) (registered_edges f)))%nat)
          as [Hi|Hi].
        + apply filter_length_pos in Hi as (e & ? & ?). eauto.
        + assert (0 < length (filter (λ e : T * T, e.1 = s) (registered_edges f)))%nat
            as Ho by lia.
          apply filter_length_pos in Ho as (e & ? & ?). eauto.
      - intros (e & He & [Hsrc|Htgt]).
        + assert (0 < length (filter (λ e : T * T, e.1 = s) (registered_edges f)))%nat;
            [apply filter_length_pos; eauto | lia].
        + assert (0 < length (filter (λ e : T * T, e.2 = s) (registered_edges f)))%nat;
            [apply filter_length_pos; eauto | lia]. }
    rewrite <- Hpos. case_bool_decide as Hzero.
    + split; [|done]. split; [by intros [? ?] | lia].
    + split; [|by intros ? ? [= <- <-]]. split; [lia | eauto].
  - intros f s t pred f' Hreg src tgt.
    destruct (register_transition_cases f s t pred) as [Hrej|(Hst & _ & Hacc)];
      [congruence|].
    rewrite Hacc in Hreg. injection Hreg as <-.
    rewrite out_count_registered, in_count_registered, !decide_True by done.
    split_and!; try done; apply int32_incr_small.
Qed.

(** ** The deadline-bounded trigger *)

Lemma is_timeout_fn_true abs_time cur_time :
  is_timeout_fn abs_time cur_time = true ↔ deadline_reached abs_time cur_time.
Proof.
  unfold is_timeout_fn, deadline_reached.
  rewrite orb_true_iff, andb_true_iff, Z.gtb_ltb, Z.ltb_lt, Z.eqb_eq, Z.geb_le.
  done.
Qed.

Lemma poll_once_changed abs_time f out w cur_time :
  res_outcome (try_trigger f out (yield w)) = Returned true →
  poll_once yield clock_gettime abs_time f out w cur_time
  = inl (try_trigger f out (yield w)).
Proof. intros Hr. unfold poll_once. by rewrite Hr. Qed.

Lemma poll_once_gives_up abs_time f out w cur_time rc cur1 w2 :
  res_outcome (try_trigger f out (yield w)) = Returned false →
  clock_gettime (res_world (try_trigger f out (yield w))) cur_time = (rc, cur1, w2) →
  rc ≠ 0 ∨ deadline_reached abs_time cur1 →
  poll_once yield clock_gettime abs_time f out w cur_time
  = inl (mk_result (Returned false) f out w2).
Proof.
  intros Hr Hclock Hstop. unfold poll_once. rewrite Hr, Hclock.
  destruct (try_trigger_unchanged_frame f out (yield w) Hr) as [-> ->].
  destruct (rc =? 0) eqn:Hrc; simpl; [|done].
  destruct Hstop as [Hfail|Hlate]; [by apply Z.eqb_eq in Hrc|].
  apply is_timeout_fn_true in Hlate. by rewrite Hlate.
Qed.

Lemma poll_once_frame abs_time f out w cur_time :
  match poll_once yield clock_gettime abs_time f out w cur_time with
  | inl r => res_outcome r = Returned false → res_fsm r = f ∧ res_out r = out
  | inr (f1, out1, _, _) => f1 = f ∧ out1 = out
  end.
Proof.
  unfold poll_once.
  pose proof (try_trigger_unchanged_frame f out (yield w)) as Hframe.
  destruct (res_outcome (try_trigger f out (yield w))) as [[]|e] eqn:Hr;
    [by rewrite Hr| |by rewrite Hr].
  destruct (clock_gettime _ _) as [[rc cur1] w2].
  destruct (negb (rc =? 0)); [auto|]. destruct (negb (is_timeout_fn _ _)); auto.
Qed.

Lemma idle_polls_frame n abs_time f out w cur_time f1 out1 w1 cur1 :
  idle_polls yield clock_gettime n abs_time f out w cur_time = Some (f1, out1, w1, cur1) →
  f1 = f ∧ out1 = out.
Proof.
  revert w cur_time. induction n as [|n IH]; intros w cur_time; simpl.
  { by intros [= <- <- _ _]. }
  pose proof (poll_once_frame abs_time f out w cur_time) as Hframe.
  destruct (poll_once _ _ _ _ _ _ _) as [r|[[[f2 out2] w2] cur2]]; [done|].
  destruct Hframe as [-> ->]. apply IH.
Qed.

Lemma timed_loop_after_idle n abs_time f out w cur_time f1 out1 w1 cur1 fuel :
  idle_polls yield clock_gettime n abs_time f out w cur_time = Some (f1, out1, w1, cur1) →
  timed_loop yield clock_gettime (n + fuel) abs_time f out w cur_time
  = timed_loop yield clock_gettime fuel abs_time f1 out1 w1 cur1.
Proof.
  revert f out w cur_time. induction n as [|n IH]; intros f out w cur_time; simpl.
  { by intros [= <- <- <- <-]. }
  destruct (poll_once _ _ _ _ _ _ _) as [r|[[[f2 out2] w2] cur2]]; [done|].
  apply IH.
Qed.

Lemma timed_loop_false_frame fuel abs_time f out w cur_time r :
  timed_loop yield clock_gettime fuel abs_time f out w cur_time = Some r →
  res_outcome r = Returned false → res_fsm r = f ∧ res_out r = out.
Proof.
  revert w cur_time. induction fuel as [|fuel IH]; intros w cur_time; simpl; [done|].
  pose proof (poll_once_frame abs_time f out w cur_time) as Hframe.
  destruct (poll_once _ _ _ _ _ _ _) as [r'|[[[f2 out2] w2] cur2]].
  - by intros [= <-].
  - destruct Hframe as [-> ->]. apply IH.
Qed.

(** C9. [timed_trigger] returns true at the first [try_trigger] call that
    returns true: the one before the loop, or the one of a round that
    follows rounds which all went round again.  It returns false in the
    round whose [try_trigger] returns false and whose clock read either
    fails or gives a time that has reached or passed the deadline, and then
    the machine, its current state included, and the caller's variables are
    as they were at the call.  In each case any fuel beyond the number of
    rounds gives the result; and whenever it returns false the machine and
    the caller's variables are unchanged. *)
Theorem timed_trigger_returns f out w abs_time :
  let r0 := try_trigger f out w in
  (res_outcome r0 = Returned true →
   ∀ fuel, timed_trigger yield clock_gettime fuel f out w abs_time = Some r0)
  ∧ (res_outcome r0 = Returned false →
     ∀ n f1 out1 w1 cur fuel,
       idle_polls yield clock_gettime n abs_time f out (res_world r0) (mk_timespec 0 0)
       = Some (f1, out1, w1, cur) →
       (n < fuel)%nat →
       let r := try_trigger f1 out1 (yield w1) in
       (res_outcome r = Returned true →
        timed_trigger yield clock_gettime fuel f out w abs_time = Some r)
       ∧ (res_outcome r = Returned false →
          ∀ rc cur1 w2,
            clock_gettime (res_world r) cur = (rc, cur1, w2) →
            rc ≠ 0 ∨ deadline_reached abs_time cur1 →
            timed_trigger yield clock_gettime fuel f out w abs_time
            = Some (mk_result (Returned false) f out w2)))
  ∧ (∀ fuel r,
       timed_trigger yield clock_gettime fuel f out w abs_time = Some r →
       res_outcome r = Returned false →
       res_fsm r = f ∧ res_out r = out ∧ state (res_fsm r) = state f).
Proof.
  simpl. split_and!.
  - intros Hr0 fuel. unfold timed_trigger. by rewrite Hr0.
  - intros Hr0 n f1 out1 w1 cur fuel Hidle Hfuel.
    destruct (try_trigger_unchanged_frame f out w Hr0) as [Hf0 Hout0].
    assert (∀ res,
              poll_once yield clock_gettime abs_time f1 out1 w1 cur = inl res →
              timed_trigger yield clock_gettime fuel f out w abs_time = Some res)
      as Hstop.
    { intros res Hpoll. unfold timed_trigger. rewrite Hr0, Hf0, Hout0.
      replace fuel with (n + S (fuel - S n))%nat by lia.
      rewrite (timed_loop_after_idle _ _ _ _ _ _ _ _ _ _ _ Hidle). simpl.
      by rewrite Hpoll. }
    destruct (idle_polls_frame _ _ _ _ _ _ _ _ _ _ Hidle) as [-> ->].
    split.
    + intros Hr. apply Hstop. by apply poll_once_changed.
    + intros Hr rc cur1 w2 Hclock Hgive. apply Hstop.
      by apply (poll_once_gives_up _ _ _ _ _ rc cur1 w2).
  - intros fuel r. unfold timed_trigger.
    destruct (res_outcome (try_trigger f out w)) as [[]|e] eqn:Hr0.
    + intros [= <-] Hfalse. congruence.
    + destruct (try_trigger_unchanged_frame f out w Hr0) as [-> ->].
      intros Hloop Hfalse.
      destruct (timed_loop_false_frame _ _ _ _ _ _ _ Hloop Hfalse) as [-> ->]. done.
    + intros [= <-] Hfalse. congruence.
Qed.

End PollingFacts.

End EngineFacts.

(** * The theorems at work on the worked machines *)

Lemma ex_machine_mirrors b1 b2 b3 : mirrors (ex_machine b1 b2 b3).
Proof. apply mirrors_set_state, build_mirrors. by vm_compute. Qed.

Lemma try_trigger_ambiguous_witness :
  ∃ pre si post w1,
    ex_edges true true true = pre ++ si :: post
    ∧ count_true (eval_preds pre []).1 = 1%nat
    ∧ si.2 (eval_preds pre []).2 = (true, w1)
    ∧ try_trigger (ex_machine true true true) ex_out []
      = mk_result (Threw ambiguous_state_error) (ex_machine true true true) ex_out w1.
Proof.
  apply (try_trigger_ambiguous (ex_machine true true true) ex_out [] (ex_edges true true true)).
  - apply ex_machine_mirrors.
  - split; [vm_compute; reflexivity | discriminate].
  - vm_compute. lia.
Defined.

(** The same run, computed: the log shows that the conditions of A→B and
    A→C ran and that of A→D did not. *)
Example try_trigger_ambiguous_run :
  try_trigger (ex_machine true true true) ex_out []
  = mk_result (Threw ambiguous_state_error) (ex_machine true true true) ex_out [1; 2]%nat.
Proof. vm_compute. reflexivity. Qed.

Lemma try_trigger_single_match_witness :
  try_trigger (ex_machine false true false) ex_out []
  = mk_result (Returned true) (set_state (ex_machine false true false) st_C)
      (mk_out st_A st_C) [1; 2; 3]%nat
  ∧ (let r1 := register_transition (@FSM_new nat _ _ unit st_W) st_A st_B (always false) in
     let r2 := register_transition r1.2 st_A st_C (always true) in
     let m := set_state r2.2 st_A in
     r1.1 = true ∧ r2.1 = true
     ∧ try_trigger m ex_out () = mk_result (Returned true) (set_state m st_C) (mk_out st_A st_C) ()
     ∧ state (res_fsm (try_trigger m ex_out ())) = st_C).
Proof.
  split.
  - apply (proj1 try_trigger_single_match (ex_machine false true false) ex_out []
             (ex_edges false true false) 1%nat (st_C, logs 2 true)).
    + apply ex_machine_mirrors.
    + split; [vm_compute; reflexivity | discriminate].
    + vm_compute. reflexivity.
    + reflexivity.
    + vm_compute. reflexivity.
  - apply (proj2 try_trigger_single_match st_W st_A st_B st_C ex_out ());
      vm_compute; discriminate.
Defined.

Lemma try_trigger_no_match_witness :
  try_trigger (ex_machine false false false) ex_out []
  = mk_result (Returned false) (ex_machine false false false) ex_out [1; 2; 3]%nat.
Proof.
  apply (try_trigger_no_match (ex_machine false false false) ex_out []
           (ex_edges false false false)).
  - apply ex_machine_mirrors.
  - split; [vm_compute; reflexivity | discriminate].
  - vm_compute. reflexivity.
Defined.

Lemma try_trigger_invalid_state_witness :
  try_trigger (set_state (ex_machine true true true) st_W) ex_out []
  = mk_result (Threw invalid_state_error) (set_state (ex_machine true true true) st_W)
      ex_out [].
Proof.
  apply (try_trigger_invalid_state (set_state (ex_machine true true true) st_W) ex_out []);
    vm_compute; reflexivity.
Defined.

Lemma try_trigger_terminal_witness :
  try_trigger (set_state (ex_timed 0) st_B) (mk_out st_W st_W) 0%nat
  = mk_result (Returned true) (set_state (ex_timed 0) st_B) (mk_out st_B st_B) 0%nat
  ∧ nth_try_trigger ex_yield 3 (set_state (ex_timed 0) st_B) (mk_out st_W st_W) 0%nat
    = mk_result (Returned true) (set_state (ex_timed 0) st_B) (mk_out st_B st_B) 3%nat.
Proof.
  destruct (try_trigger_terminal ex_yield (set_state (ex_timed 0) st_B) 1)
    as [Hone Hrow]; [vm_compute; reflexivity|].
  split; [apply Hone | apply (Hrow 3%nat)].
Defined.

Lemma register_transition_verdict_witness :
  register_transition (ex_machine true true true) st_A st_A (logs 4 true)
  = (false, ex_machine true true true)
  ∧ register_transition (ex_machine true true true) st_A st_C (logs 4 true)
    = (false, ex_machine true true true)
  ∧ (register_transition (ex_machine true true true) st_C st_A (logs 4 true)).1 = true
  ∧ register_transition
      (register_transition (ex_machine true true true) st_C st_A (logs 4 true)).2
      st_C st_A (logs 5 false)
    = (false, (register_transition (ex_machine true true true) st_C st_A (logs 4 true)).2).
Proof.
  split_and!.
  - apply (proj1 (register_transition_verdict (ex_machine true true true)
                    st_A st_A (logs 4 true))). by left.
  - apply (proj1 (register_transition_verdict (ex_machine true true true)
                    st_A st_C (logs 4 true))). right.
    exists (ex_edges true true true). split; [vm_compute; reflexivity|].
    vm_compute. apply list_elem_of_In. simpl. auto.
  - apply (proj2 (register_transition_verdict (ex_machine true true true)
                    st_C st_A (logs 4 true))); [discriminate|].
    intros (vec & Hvec & _). vm_compute in Hvec. discriminate.
  - apply (proj2 (register_transition_verdict (ex_machine true true true)
                    st_C st_A (logs 4 true))); [discriminate|].
    intros (vec & Hvec & _). vm_compute in Hvec. discriminate.
Defined.

Lemma is_terminated_state_iff_witness :
  (is_terminated_state (build st_W (ex_regs true true true)) st_B = true
   ↔ ∃ n_in, _edges_tbl (build st_W (ex_regs true true true)) !! st_B = Some (n_in, 0))
  ∧ is_terminated_state (build st_W (ex_regs true true true)) st_W = false
  ∧ (is_terminated_state (build st_W (ex_regs true true true)) st_B = true
     ↔ out_count (build st_W (ex_regs true true true)) st_B = 0%nat
       ∧ (0 < in_count (build st_W (ex_regs true true true)) st_B)%nat).
Proof.
  split_and!.
  - apply (is_terminated_state_iff (build st_W (ex_regs true true true)) st_B).
  - apply (is_terminated_state_iff (build st_W (ex_regs true true true)) st_W).
    vm_compute. reflexivity.
  - apply (proj2 (proj2 (is_terminated_state_iff
                           (build st_W (ex_regs true true true)) st_B))
             st_W (ex_regs true true true)); [reflexivity | by vm_compute].
Defined.

Lemma topology_mirrors_edges_witness :
  ((is_Some (_edges_tbl (ex_machine true true true) !! st_A)
    ↔ ∃ e, e ∈ registered_edges (ex_machine true true true) ∧ (e.1 = st_A ∨ e.2 = st_A))
   ∧ (∀ n_in n_out,
        _edges_tbl (ex_machine true true true) !! st_A = Some (n_in, n_out) →
        n_in = Z.of_nat (in_count (ex_machine true true true) st_A)
        ∧ n_out = Z.of_nat (out_count (ex_machine true true true) st_A)))
  ∧ (let f := ex_machine true true true in
     let f' := (register_transition f st_C st_A (logs 4 true)).2 in
     let src := default (0, 0) (_edges_tbl f !! st_C) in
     let tgt := default (0, 0) (_edges_tbl f !! st_A) in
     _trans_tbl f'
     = <[st_C := default [] (_trans_tbl f !! st_C) ++ [(st_A, logs 4 true)]]> (_trans_tbl f)
     ∧ _edges_tbl f'
       = <[st_A := (Int32.incr tgt.1, tgt.2)]>
           (<[st_C := (src.1, Int32.incr src.2)]> (_edges_tbl f))
     ∧ (Int32.min_signed <= src.2 < Int32.max_signed → Int32.incr src.2 = src.2 + 1)
     ∧ (Int32.min_signed <= tgt.1 < Int32.max_signed → Int32.incr tgt.1 = tgt.1 + 1)
     ∧ out_count f' st_C = S (out_count f st_C)
     ∧ in_count f' st_A = S (in_count f st_A)).
Proof.
  split.
  - apply (proj1 (topology_mirrors_edges (λ w, w) (λ w cur_time, (0, cur_time, w)))
             (ex_machine true true true) st_A).
    + apply reach_set_state, build_reachable.
    + by vm_compute.
    + by vm_compute.
  - apply (proj2 (topology_mirrors_edges (λ w, w) (λ w cur_time, (0, cur_time, w)))
             (ex_machine true true true) st_C st_A (logs 4 true)).
    vm_compute. reflexivity.
Defined.

Lemma timed_trigger_returns_witness :
  timed_trigger ex_yield ex_clock_gettime 0 (ex_timed 0) ex_out 0%nat (mk_timespec 3 0)
  = Some (mk_result (Returned true) (set_state (ex_timed 0) st_B) (mk_out st_A st_B) 0%nat)
  ∧ timed_trigger ex_yield ex_clock_gettime 2 (ex_timed 2) ex_out 0%nat (mk_timespec 100 0)
    = Some (mk_result (Returned true) (set_state (ex_timed 2) st_B) (mk_out st_A st_B) 2%nat)
  ∧ timed_trigger ex_yield ex_clock_gettime 3 (ex_timed 100) ex_out 0%nat (mk_timespec 3 0)
    = Some (mk_result (Returned false) (ex_timed 100) ex_out 3%nat)
  ∧ timed_trigger ex_yield ex_clock_gettime 5 (ex_timed 100) ex_out 0%nat (mk_timespec 100 0)
    = Some (mk_result (Returned false) (ex_timed 100) ex_out 5%nat)
  ∧ state (ex_timed 100) = st_A.
Proof.
  split_and!.
  - apply (proj1 (timed_trigger_returns ex_yield ex_clock_gettime
                    (ex_timed 0) ex_out 0%nat (mk_timespec 3 0))).
    vm_compute. reflexivity.
  - apply (proj1 (proj2 (timed_trigger_returns ex_yield ex_clock_gettime
                           (ex_timed 2) ex_out 0%nat (mk_timespec 100 0)))
             eq_refl 1%nat (ex_timed 2) ex_out 1%nat (mk_timespec 1 0) 2%nat);
      [vm_compute; reflexivity | lia | vm_compute; reflexivity].
  - eapply (proj1 (proj2 (timed_trigger_returns ex_yield ex_clock_gettime
                            (ex_timed 100) ex_out 0%nat (mk_timespec 3 0)))
              eq_refl 2%nat (ex_timed 100) ex_out 2%nat (mk_timespec 2 0) 3%nat);
      [vm_compute; reflexivity | lia | vm_compute; reflexivity
      | vm_compute; reflexivity |].
    right. right. vm_compute. split; [reflexivity | discriminate].
  - eapply (proj1 (proj2 (timed_trigger_returns ex_yield ex_clock_gettime
                            (ex_timed 100) ex_out 0%nat (mk_timespec 100 0)))
              eq_refl 4%nat (ex_timed 100) ex_out 4%nat (mk_timespec 4 0) 5%nat);
      [vm_compute; reflexivity | lia | vm_compute; reflexivity
      | vm_compute; reflexivity |].
    left. discriminate.
  - apply (proj2 (proj2 (timed_trigger_returns ex_yield ex_clock_gettime
                           (ex_timed 100) ex_out 0%nat (mk_timespec 3 0)))
             3%nat (mk_result (Returned false) (ex_timed 100) ex_out 3%nat));
      vm_compute; reflexivity.
Defined.

(** * More of the engine *)

Section MoreFacts.

Context {T : Type} `{Countable T} {W : Type}.

Implicit Types (f : @FSM T _ _ W) (s t x : T) (w : W) (out : @out_params T).
Implicit Types (edges vec more : list (@state_info_t T W)).
Implicit Types (si : @state_info_t T W) (pred : @trans_func_t W).

Variable yield : W → W.
Variable clock_gettime : W → timespec → Z * timespec * W.

(** ** The shape of the transition table *)

Lemma table_wf_tables f f' :
  _trans_tbl f' = _trans_tbl f → table_wf f → table_wf f'.
Proof. intros Htbl Hf s vec. rewrite Htbl. apply Hf. Qed.

Lemma registered_table_wf f s t pred :
  s ≠ t → ¬ edge_registered f s t → table_wf f → table_wf (registered f s t pred).
Proof.
  intros Hst Hnew Hf x vec. unfold registered; simpl.
  destruct (decide (x = s)) as [->|Hxs].
  - rewrite lookup_insert_eq. intros [= <-].
    destruct (_trans_tbl f !! s) as [old|] eqn:Hs; simpl.
    + destruct (Hf s old Hs) as (_ & Hself & Hnd).
      assert (t ∉ old.*1) as Ht.
      { intros Hin. apply Hnew. by exists old. }
      split_and!.
      * by destruct old.
      * rewrite fmap_app, elem_of_app; simpl. intros [Hin|Hin]; [done|].
        by apply list_elem_of_singleton in Hin.
      * rewrite fmap_app; simpl. apply NoDup_app.
        split_and!; [done | | apply NoDup_singleton].
        intros y Hy Hy'. by apply list_elem_of_singleton in Hy' as ->.
    + split_and!; [done | | apply NoDup_singleton].
      intros Hin. by apply list_elem_of_singleton in Hin.
  - rewrite lookup_insert_ne by done. apply Hf.
Qed.

Lemma reachable_table_wf f : reachable yield clock_gettime f → table_wf f.
Proof.
  induction 1 as [garbage|f s t pred _ IH|f s _ IH|f out w _ IH
                  |fuel f out w r _ IH Hr|fuel f out w abs_time r _ IH Hr].
  - intros s vec. unfold FSM_new; simpl. by rewrite lookup_empty.
  - destruct (register_transition_cases f s t pred) as [->|(Hst & Hnew & ->)];
      [done|]. by apply registered_table_wf.
  - done.
  - destruct (try_trigger_tables f out w). by apply (table_wf_tables f).
  - destruct (trigger_tables _ _ _ _ _ _ Hr). by apply (table_wf_tables f).
  - destruct (timed_trigger_tables _ _ _ _ _ _ _ _ Hr). by apply (table_wf_tables f).
Qed.

(** X1. In every machine the operations produce, no state has an edge to
    itself, no vector of the transition table is empty or holds a target
    twice, and a state has a vector exactly when it is the source of a
    registered edge. *)
Theorem transition_table_shape f :
  reachable yield clock_gettime f →
  (∀ s, ¬ edge_registered f s s)
  ∧ (∀ s vec, _trans_tbl f !! s = Some vec → vec ≠ [] ∧ NoDup (vec.*1))
  ∧ (∀ s, is_Some (_trans_tbl f !! s) ↔ (0 < out_count f s)%nat).
Proof.
  intros Hwf%reachable_table_wf. split_and!.
  - intros s (vec & Hvec & Hin). by destruct (Hwf s vec Hvec) as (_ & Hself & _).
  - intros s vec Hvec. by destruct (Hwf s vec Hvec) as (Hne & _ & Hnd).
  - intros s. rewrite out_count_lookup. split.
    + intros [vec Hvec]. rewrite Hvec; simpl.
      destruct (Hwf s vec Hvec) as (Hne & _). destruct vec; [done | simpl; lia].
    + destruct (_trans_tbl f !! s); [eauto | simpl; lia].
Qed.

(** ** Registered edges stay *)

Lemma register_transition_extends f s t pred x vec :
  _trans_tbl f !! x = Some vec →
  ∃ more,
    _trans_tbl (register_transition f s t pred).2 !! x = Some (vec ++ more)
    ∧ (more = [] ∨ (x = s ∧ more = [(t, pred)])).
Proof.
  intros Hvec.
  destruct (register_transition_cases f s t pred) as [->|(_ & _ & ->)]; simpl.
  { exists []. rewrite app_nil_r. auto. }
  unfold registered; simpl. destruct (decide (x = s)) as [->|Hxs].
  - exists [(t, pred)]. unfold state_info_t in *.
    rewrite lookup_insert_eq, Hvec. auto.
  - exists []. rewrite lookup_insert_ne, app_nil_r by done. auto.
Qed.

(** X2. Registration never removes, replaces or reorders an edge: after
    [register_transition], each vector of the table is the one before,
    with the new edge appended when the call was accepted and the vector
    is the source's; so whatever registrations follow, the vectors built
    so far remain as prefixes. *)
Theorem registration_keeps_edges :
  (∀ f s t pred x vec,
     _trans_tbl f !! x = Some vec →
     ∃ more,
       _trans_tbl (register_transition f s t pred).2 !! x = Some (vec ++ more)
       ∧ (more = [] ∨ (x = s ∧ more = [(t, pred)])))
  ∧ (∀ garbage (regs regs' : list (T * T * @trans_func_t W)) x vec,
       _trans_tbl (build garbage regs) !! x = Some vec →
       ∃ more, _trans_tbl (build garbage (regs ++ regs')) !! x = Some (vec ++ more)).
Proof.
  split; [apply register_transition_extends|].
  intros garbage regs regs' x vec Hvec.
  induction regs' as [|[[s t] pred] regs' (more & IH)] using rev_ind.
  - exists []. by rewrite !app_nil_r.
  - rewrite app_assoc, build_snoc.
    destruct (register_transition_extends _ s t pred x _ IH) as (more' & Hmore & _).
    exists (more ++ more'). by rewrite app_assoc.
Qed.

(** ** The edge set decides what [try_trigger] does *)

Lemma filter_length_zero {A} (P : A → Prop) `{∀ a, Decision (P a)} (l : list A) :
  (∀ a, a ∈ l → ¬ P a) → length (filter P l) = 0%nat.
Proof.
  intros Hnone. destruct (filter P l) as [|a l'] eqn:Hfl; [done|].
  assert (a ∈ filter P l) as Ha by (rewrite Hfl; left).
  apply list_elem_of_filter in Ha as [HP Hin]. by destruct (Hnone a Hin).
Qed.

(** X3. On a machine the operations produced, with fewer than 2^31 edges,
    what [try_trigger] does after [set_state(s)] is decided by the edges
    that mention [s]: if none does, it throws [invalid_state_error]; if
    [s] is a target but never a source, it returns true with old = new =
    [s]; if [s] is the source of an edge, it is neither terminated nor
    invalid.  In the first two cases nothing changes. *)
Theorem try_trigger_by_edge_set f s out w :
  reachable yield clock_gettime f →
  Z.of_nat (length (registered_edges f)) <= Int32.max_signed →
  ((∀ e, e ∈ registered_edges f → e.1 ≠ s ∧ e.2 ≠ s) →
   try_trigger (set_state f s) out w
   = mk_result (Threw invalid_state_error) (set_state f s) out w)
  ∧ ((∀ e, e ∈ registered_edges f → e.1 ≠ s) →
     (∃ e, e ∈ registered_edges f ∧ e.2 = s) →
     try_trigger (set_state f s) out w
     = mk_result (Returned true) (set_state f s) (mk_out s s) w)
  ∧ ((∃ e, e ∈ registered_edges f ∧ e.1 = s) →
     is_terminated_state (set_state f s) s = false
     ∧ res_outcome (try_trigger (set_state f s) out w) ≠ Threw invalid_state_error).
Proof.
  intros Hreach Hlen.
  pose proof (reachable_mirrors yield clock_gettime f Hreach Hlen s) as Hs.
  pose proof (reachable_table_wf f Hreach) as Hwf.
  pose proof (out_count_lookup f s) as Hout.
  unfold mirrors_at, summary_of in Hs.
  unfold try_trigger, is_terminated_state, set_state; simpl.
  split_and!.
  - intros Hnone.
    assert (in_count f s = 0%nat) as Hin0
      by (apply filter_length_zero; intros e He; by destruct (Hnone e He)).
    assert (out_count f s = 0%nat) as Hout0
      by (apply filter_length_zero; intros e He; by destruct (Hnone e He)).
    rewrite Hs, Hin0, Hout0; simpl.
    destruct (_trans_tbl f !! s) as [vec|] eqn:Hvec; [|done].
    destruct (Hwf s vec Hvec) as (Hne & _). rewrite Hout0 in Hout.
    by destruct vec.
  - intros Hnosrc Htgt.
    assert (out_count f s = 0%nat) as Hout0
      by (apply filter_length_zero; intros e He; by apply Hnosrc).
    assert (0 < in_count f s)%nat as Hin by (by apply filter_length_pos).
    rewrite Hs, Hout0. rewrite bool_decide_eq_false_2 by lia. done.
  - intros Hsrc.
    assert (0 < out_count f s)%nat as Hpos by (by apply filter_length_pos).
    rewrite Hs. rewrite bool_decide_eq_false_2 by lia.
    assert ((Z.of_nat (out_count f s) =? 0) = false) as -> by (apply Z.eqb_neq; lia).
    split; [done|].
    destruct (_trans_tbl f !! s) as [vec|] eqn:Hvec; [|simpl in Hout; lia].
    destruct (scan_edges vec 0 s w) as [[[cnt tmp]|] w1]; [|done].
    by destruct (cnt =? 1).
Qed.

(** ** What the trigger functions may change *)

Lemma scan_edges_target edges cnt tmp w cnt' tmp' w' :
  scan_edges edges cnt tmp w = (Some (cnt', tmp'), w') →
  tmp' = tmp ∨ tmp' ∈ edges.*1.
Proof.
  revert cnt tmp w. induction edges as [|si edges IH]; intros cnt tmp w; simpl.
  { intros [= _ <- _]. by left. }
  destruct (si.2 w) as [b w1]. destruct (1 <? _); [done|].
  intros [->|Hin]%IH.
  - destruct b; [right; left | by left].
  - right. by right.
Qed.

Lemma moved_along_edge_refl f : moved_along_edge f f.
Proof. unfold moved_along_edge. auto. Qed.

Lemma try_trigger_moved f out w : moved_along_edge f (res_fsm (try_trigger f out w)).
Proof.
  unfold try_trigger.
  destruct (is_terminated_state f (_state f)); [apply moved_along_edge_refl|].
  destruct (_trans_tbl f !! _state f) as [edges|] eqn:Hedges;
    [|apply moved_along_edge_refl].
  destruct (scan_edges edges 0 (_state f) w) as [[[cnt tmp]|] w1] eqn:Hscan;
    [|apply moved_along_edge_refl].
  destruct (cnt =? 1); [|apply moved_along_edge_refl].
  unfold moved_along_edge; simpl. split_and!; [done | done |].
  apply scan_edges_target in Hscan as [->|Hin]; [by left | right].
  by exists edges.
Qed.

Lemma try_trigger_threw_frame f out w e :
  res_outcome (try_trigger f out w) = Threw e →
  res_fsm (try_trigger f out w) = f ∧ res_out (try_trigger f out w) = out.
Proof. unfold try_trigger. repeat case_match; simpl; done. Qed.

Lemma trigger_moved fuel f out w r :
  trigger yield fuel f out w = Some r → moved_along_edge f (res_fsm r).
Proof.
  revert out w. induction fuel as [|fuel IH]; intros out w; simpl; [done|].
  pose proof (try_trigger_moved f out w) as Hstep.
  pose proof (try_trigger_unchanged_frame f out w) as Hframe.
  destruct (res_outcome (try_trigger f out w)) as [[]|e].
  - by intros [= <-].
  - destruct Hframe as [-> ->]; [done|]. apply IH.
  - by intros [= <-].
Qed.

Lemma poll_once_moved abs_time f out w cur_time :
  match poll_once yield clock_gettime abs_time f out w cur_time with
  | inl r => moved_along_edge f (res_fsm r)
  | inr (f1, out1, _, _) => f1 = f ∧ out1 = out
  end.
Proof.
  unfold poll_once.
  pose proof (try_trigger_moved f out (yield w)) as Hstep.
  pose proof (try_trigger_unchanged_frame f out (yield w)) as Hframe.
  destruct (res_outcome (try_trigger f out (yield w))) as [[]|e]; [done| |done].
  destruct (clock_gettime _ _) as [[rc cur1] w2].
  destruct (negb (rc =? 0)); [done|]. destruct (negb (is_timeout_fn _ _)); auto.
Qed.

Lemma timed_loop_moved fuel abs_time f out w cur_time r :
  timed_loop yield clock_gettime fuel abs_time f out w cur_time = Some r →
  moved_along_edge f (res_fsm r).
Proof.
  revert out w cur_time. induction fuel as [|fuel IH]; intros out w cur_time; simpl;
    [done|].
  pose proof (poll_once_moved abs_time f out w cur_time) as Hpoll.
  destruct (poll_once _ _ _ _ _ _ _) as [r'|[[[f1 out1] w1] cur1]].
  - by intros [= <-].
  - destruct Hpoll as [-> ->]. apply IH.
Qed.

(** X4. Whatever a trigger function returns or throws, it leaves the
    transition table and the summary as they were, and the current state
    either as it was or at a registered target of it: [try_trigger],
    [trigger] and [timed_trigger] never move the machine but along one
    registered edge. *)
Theorem triggers_move_along_edges f out w :
  moved_along_edge f (res_fsm (try_trigger f out w))
  ∧ (∀ fuel r, trigger yield fuel f out w = Some r → moved_along_edge f (res_fsm r))
  ∧ (∀ fuel abs_time r,
       timed_trigger yield clock_gettime fuel f out w abs_time = Some r →
       moved_along_edge f (res_fsm r)).
Proof.
  split_and!; [apply try_trigger_moved | intros fuel r; apply trigger_moved |].
  intros fuel abs_time r. unfold timed_trigger.
  pose proof (try_trigger_moved f out w) as Hstep.
  pose proof (try_trigger_unchanged_frame f out w) as Hframe.
  destruct (res_outcome (try_trigger f out w)) as [[]|e].
  - by intros [= <-].
  - destruct Hframe as [-> ->]; [done|]. apply timed_loop_moved.
  - by intros [= <-].
Qed.

(** ** The blocking trigger *)

Lemma idle_attempts_trigger n f out w w_n fuel :
  idle_attempts yield n f out w = Some w_n →
  trigger yield (n + fuel) f out w = trigger yield fuel f out w_n.
Proof.
  revert w. induction n as [|n IH]; intros w; simpl; [by intros [= ->]|].
  pose proof (try_trigger_unchanged_frame f out w) as Hframe.
  destruct (res_outcome (try_trigger f out w)) as [[]|e]; [done| |done].
  destruct Hframe as [-> ->]; [done|]. apply IH.
Qed.

Lemma idle_attempts_blocked n f out w w_n fuel :
  idle_attempts yield n f out w = Some w_n → (fuel ≤ n)%nat →
  trigger yield fuel f out w = None.
Proof.
  revert w fuel. induction n as [|n IH]; intros w fuel; simpl.
  { intros _ Hfuel. by replace fuel with 0%nat by lia. }
  pose proof (try_trigger_unchanged_frame f out w) as Hframe.
  destruct fuel as [|fuel]; [done|]. simpl.
  destruct (res_outcome (try_trigger f out w)) as [[]|e]; [done| |done].
  destruct Hframe as [-> ->]; [done|]. intros Hidle Hfuel. apply (IH _ _ Hidle). lia.
Qed.

(** X5. [trigger] returns at the first [try_trigger] that does not
    return false: after [n] rounds whose [try_trigger] returned false (with
    a [yield] after each), if the next [try_trigger] returns true or
    throws, [trigger] ends the same way with the same machine, variables
    and world, given any fuel above [n]; with less it is still in the
    loop; and [trigger] never comes back from a [try_trigger] that
    returned false. *)
Theorem trigger_returns f out w :
  (∀ n w_n fuel,
     idle_attempts yield n f out w = Some w_n →
     res_outcome (try_trigger f out w_n) ≠ Returned false →
     (n < fuel)%nat →
     trigger yield fuel f out w = Some (try_trigger f out w_n))
  ∧ (∀ n w_n fuel,
       idle_attempts yield n f out w = Some w_n → (fuel ≤ n)%nat →
       trigger yield fuel f out w = None)
  ∧ (∀ fuel r,
       trigger yield fuel f out w = Some r → res_outcome r ≠ Returned false).
Proof.
  split_and!.
  - intros n w_n fuel Hidle Hr Hfuel.
    replace fuel with (n + S (fuel - S n))%nat by lia.
    rewrite (idle_attempts_trigger _ _ _ _ _ _ Hidle). simpl.
    by destruct (res_outcome (try_trigger f out w_n)) as [[]|e].
  - intros n w_n fuel. apply idle_attempts_blocked.
  - intros fuel. revert w. induction fuel as [|fuel IH]; intros w r; simpl; [done|].
    pose proof (try_trigger_unchanged_frame f out w) as Hframe.
    destruct (res_outcome (try_trigger f out w)) as [[]|e] eqn:Hr.
    + intros [= <-]. by rewrite Hr.
    + destruct Hframe as [-> ->]; [done|]. apply IH.
    + intros [= <-]. by rewrite Hr.
Qed.

(** X6. While no condition of the current state can hold, whatever the
    world, [trigger] does not come back: no amount of fuel gives a
    result. *)
Theorem trigger_blocks f out :
  (∀ w, res_outcome (try_trigger f out w) = Returned false) →
  ∀ fuel w, trigger yield fuel f out w = None.
Proof.
  intros Hnever fuel. induction fuel as [|fuel IH]; intros w; simpl; [done|].
  rewrite Hnever.
  destruct (try_trigger_unchanged_frame f out w (Hnever w)) as [-> ->]. apply IH.
Qed.

(** ** Exceptions in the deadline-bounded trigger *)

Lemma try_trigger_threw f out w e :
  res_outcome (try_trigger f out w) = Threw e →
  try_trigger f out w = mk_result (Threw e) f out (res_world (try_trigger f out w)).
Proof.
  intros He. destruct (try_trigger_threw_frame f out w e He) as [Hf Hout].
  destruct (try_trigger f out w) as [o f' out' w']. simpl in *. by subst.
Qed.

Lemma poll_once_threw abs_time f out w cur_time e :
  res_outcome (try_trigger f out (yield w)) = Threw e →
  poll_once yield clock_gettime abs_time f out w cur_time
  = inl (try_trigger f out (yield w)).
Proof. intros Hr. unfold poll_once. by rewrite Hr. Qed.

(** X7. [timed_trigger] lets an exception of [try_trigger] through at
    once: thrown by the attempt before the loop, or by the attempt of a
    round that follows rounds which all went round again, it leaves
    [timed_trigger] (for any fuel beyond those rounds) with the machine and
    the caller's variables as they were at the call and the world as the
    pass left it, the clock not being read again.  Once the first attempt
    has returned false, no later attempt throws [invalid_state_error]. *)
Theorem timed_trigger_propagates f out w abs_time :
  (∀ e fuel,
     res_outcome (try_trigger f out w) = Threw e →
     timed_trigger yield clock_gettime fuel f out w abs_time
     = Some (mk_result (Threw e) f out (res_world (try_trigger f out w))))
  ∧ (res_outcome (try_trigger f out w) = Returned false →
     (∀ e n f1 out1 w1 cur fuel,
        idle_polls yield clock_gettime n abs_time f out
          (res_world (try_trigger f out w)) (mk_timespec 0 0)
        = Some (f1, out1, w1, cur) →
        (n < fuel)%nat →
        res_outcome (try_trigger f1 out1 (yield w1)) = Threw e →
        timed_trigger yield clock_gettime fuel f out w abs_time
        = Some (mk_result (Threw e) f out
                  (res_world (try_trigger f1 out1 (yield w1)))))
     ∧ (∀ w', res_outcome (try_trigger f out w') ≠ Threw invalid_state_error)).
Proof.
  split.
  - intros e fuel He. unfold timed_trigger. rewrite He. f_equal.
    by apply try_trigger_threw.
  - intros Hr0. split.
    + intros e n f1 out1 w1 cur fuel Hidle Hfuel He.
      destruct (try_trigger_unchanged_frame f out w Hr0) as [Hf0 Hout0].
      destruct (idle_polls_frame _ _ _ _ _ _ _ _ _ _ _ _ Hidle) as [-> ->].
      unfold timed_trigger. rewrite Hr0, Hf0, Hout0.
      replace fuel with (n + S (fuel - S n))%nat by lia.
      rewrite (timed_loop_after_idle _ _ _ _ _ _ _ _ _ _ _ _ _ Hidle). simpl.
      rewrite (poll_once_threw _ _ _ _ _ e He). f_equal.
      by apply try_trigger_threw.
    + intros w'. revert Hr0. unfold try_trigger.
      destruct (is_terminated_state f (_state f)); [done|].
      destruct (_trans_tbl f !! _state f) as [edges|]; [|done]. intros _.
      destruct (scan_edges edges 0 (_state f) w') as [[[cnt tmp]|] w1]; [|done].
      by destruct (cnt =? 1).
Qed.

(** ** Conditions without side effects *)

Lemma eval_preds_pure edges w :
  Forall (λ si, pure_cond si.2) edges →
  eval_preds edges w = ((λ si, (si.2 w).1) <$> edges, w).
Proof.
  induction 1 as [|si edges Hsi _ IH]; [done|].
  rewrite eval_preds_cons, (Hsi w), IH. done.
Qed.

Lemma count_true_pos_lookup bs : (0 < count_true bs)%nat → ∃ i, bs !! i = Some true.
Proof.
  unfold count_true. intros (b & Hin & ->)%filter_length_pos.
  by apply list_elem_of_lookup in Hin.
Qed.

(** The outcome of the loop of [try_trigger] over conditions without side
    effects: with the same conditions in another order it is the same. *)
Lemma scan_edges_pure_perm edges edges' tmp w :
  edges ≡ₚ edges' → Forall (λ si, pure_cond si.2) edges →
  ∃ res, scan_edges edges 0 tmp w = (res, w) ∧ scan_edges edges' 0 tmp w = (res, w).
Proof.
  intros Hperm Hpure.
  assert (Forall (λ si, pure_cond si.2) edges') as Hpure' by (by rewrite <- Hperm).
  pose proof (eval_preds_pure edges w Hpure) as Heval.
  pose proof (eval_preds_pure edges' w Hpure') as Heval'.
  assert (count_true (eval_preds edges' w).1 = count_true (eval_preds edges w).1) as Hcount.
  { rewrite Heval, Heval'. unfold count_true; simpl. by rewrite Hperm. }
  assert (∀ l, Forall (λ si, pure_cond si.2) l →
               2 <= 0 + Z.of_nat (count_true (eval_preds l w).1) →
               scan_edges l 0 tmp w = (None, w)) as Htwo.
  { intros l Hl Hl2.
    destruct (scan_edges_two_true l 0 tmp w) as (pre & si & post & w1 & -> & _ & Hsi & ->);
      [by left | done |].
    apply Forall_app in Hl as [Hpre [Hsi' _]%Forall_cons].
    rewrite (eval_preds_pure pre w Hpre) in Hsi. simpl in Hsi.
    specialize (Hsi' w). rewrite Hsi in Hsi'. simpl in Hsi'. by subst. }
  destruct (count_true (eval_preds edges w).1) as [|[|k]] eqn:Hk.
  - exists (Some (0, tmp)).
    rewrite !scan_edges_none_true by (done || lia). by rewrite Heval, Heval'.
  - destruct (count_true_pos_lookup (eval_preds edges w).1) as [i Hi]; [lia|].
    assert (∃ si, edges !! i = Some si ∧ (si.2 w).1 = true) as (si & Hsi & Htrue).
    { rewrite Heval in Hi. simpl in Hi. rewrite list_lookup_fmap in Hi.
      destruct (edges !! i) as [si|]; [|done]. injection Hi as Hi. eauto. }
    assert (si ∈ edges') as [j Hj]%list_elem_of_lookup.
    { rewrite <- Hperm. by apply list_elem_of_lookup_2 in Hsi. }
    exists (Some (1, si.1)). split.
    + rewrite (scan_edges_one_true edges tmp w i si) by done. by rewrite Heval.
    + rewrite (scan_edges_one_true edges' tmp w j si); [by rewrite Heval'|done..|].
      rewrite Heval'. simpl. by rewrite list_lookup_fmap, Hj; simpl; rewrite Htrue.
  - exists None. split; apply Htwo; try done; rewrite ?Hcount, ?Hk; lia.
Qed.

(** X9. For conditions without side effects the order of registration
    does not matter to [try_trigger]: two machines with the same current
    state and summary, whose vectors for that state hold the same edges in
    different orders, end the call the same way, with the same values in
    the caller's variables and the same current state, and both leave the
    world as it was. *)
Theorem try_trigger_order_independent f f' out w edges edges' :
  _state f' = _state f → _edges_tbl f' = _edges_tbl f →
  _trans_tbl f !! _state f = Some edges →
  _trans_tbl f' !! _state f = Some edges' →
  edges ≡ₚ edges' →
  Forall (λ si, pure_cond si.2) edges →
  res_outcome (try_trigger f' out w) = res_outcome (try_trigger f out w)
  ∧ res_out (try_trigger f' out w) = res_out (try_trigger f out w)
  ∧ _state (res_fsm (try_trigger f' out w)) = _state (res_fsm (try_trigger f out w))
  ∧ res_world (try_trigger f out w) = w
  ∧ res_world (try_trigger f' out w) = w.
Proof.
  intros Hstate Hsummary Hedges Hedges' Hperm Hpure.
  unfold try_trigger, is_terminated_state. rewrite Hstate, Hsummary, Hedges, Hedges'.
  destruct (_edges_tbl f !! _state f) as [[n_in n_out]|]; [destruct (n_out =? 0)|].
  1: by simpl; rewrite ?Hstate.
  all: destruct (scan_edges_pure_perm edges edges' (_state f) w Hperm Hpure)
         as (res & -> & ->);
       destruct res as [[cnt tmp]|]; [destruct (cnt =? 1)|];
       by simpl; rewrite ?Hstate.
Qed.

(** ** Transitions never lead into an invalid state *)

Lemma edge_registered_elem f s t :
  edge_registered f s t → (s, t) ∈ registered_edges f.
Proof.
  intros (vec & Hvec & Hin). unfold registered_edges.
  apply list_elem_of_bind. exists (s, vec). split.
  - unfold edges_from; simpl.
    apply list_elem_of_fmap in Hin as (si & -> & Hsi).
    apply list_elem_of_fmap. by exists si.
  - by apply elem_of_map_to_list.
Qed.

(** X10. On a machine the operations produced, with fewer than 2^31
    edges, a [try_trigger] that does not throw [invalid_state_error]
    leaves a machine on which the next [try_trigger] does not throw it
    either: transitions only lead to states that are terminated or have
    outgoing edges, so an invalid current state can only come from
    [set_state] or from the uninitialised start. *)
Theorem try_trigger_stays_valid f out w out' w' :
  reachable yield clock_gettime f →
  Z.of_nat (length (registered_edges f)) <= Int32.max_signed →
  res_outcome (try_trigger f out w) ≠ Threw invalid_state_error →
  res_outcome (try_trigger (res_fsm (try_trigger f out w)) out' w')
  ≠ Threw invalid_state_error.
Proof.
  intros Hreach Hlen Hvalid.
  destruct (try_trigger_moved f out w) as (Htbl & Hsum & Hmove).
  set (f' := res_fsm (try_trigger f out w)) in *.
  assert (∀ o v, res_outcome (try_trigger f' o v) = Threw invalid_state_error →
                 is_terminated_state f (_state f') = false
                 ∧ _trans_tbl f !! _state f' = None) as Hinv.
  { intros o v. unfold try_trigger, is_terminated_state.
    rewrite Hsum, Htbl.
    destruct (_edges_tbl f !! _state f') as [[n_in n_out]|];
      [destruct (n_out =? 0); [done|]|];
      (destruct (_trans_tbl f !! _state f') as [edges|]; [|done]);
      (destruct (scan_edges edges 0 (_state f') v) as [[[cnt tmp]|] w1]; [|done]);
      by destruct (cnt =? 1). }
  intros [Hterm Hnone]%Hinv.
  destruct Hmove as [Hsame|Hedge].
  - apply Hvalid. rewrite Hsame in Hterm, Hnone.
    unfold try_trigger. by rewrite Hterm, Hnone.
  - apply edge_registered_elem in Hedge.
    pose proof (reachable_mirrors yield clock_gettime f Hreach Hlen (_state f')) as Hs.
    assert (0 < in_count f (_state f'))%nat as Hin
      by (apply filter_length_pos; eauto).
    pose proof (out_count_lookup f (_state f')) as Hout. rewrite Hnone in Hout.
    unfold is_terminated_state in Hterm. unfold mirrors_at, summary_of in Hs.
    rewrite Hs, Hout in Hterm. rewrite bool_decide_eq_false_2 in Hterm by lia.
    done.
Qed.

End MoreFacts.

(** ** The timeout test *)

(** X8. On normalised times (nanoseconds within a second), the timeout
    test of [timed_trigger] holds exactly when the current time, counted
    in nanoseconds, has reached the deadline. *)
Theorem is_timeout_fn_nanoseconds (abs_time cur_time : timespec) :
  normalised abs_time → normalised cur_time →
  (is_timeout_fn abs_time cur_time = true
   ↔ nanoseconds abs_time <= nanoseconds cur_time).
Proof.
  unfold normalised, nanoseconds. intros Habs Hcur.
  rewrite is_timeout_fn_true. unfold deadline_reached. lia.
Qed.

(** * More of the engine at work on the worked machines *)

Lemma ex_machine_reachable b1 b2 b3 :
  reachable (λ w : list nat, w) (λ w cur_time, (0, cur_time, w)) (ex_machine b1 b2 b3).
Proof. apply reach_set_state, build_reachable. Qed.

Lemma transition_table_shape_witness :
  (∀ s, ¬ edge_registered (ex_machine true true true) s s)
  ∧ (∀ s vec, _trans_tbl (ex_machine true true true) !! s = Some vec →
              vec ≠ [] ∧ NoDup (vec.*1))
  ∧ (∀ s, is_Some (_trans_tbl (ex_machine true true true) !! s)
          ↔ (0 < out_count (ex_machine true true true) s)%nat).
Proof.
  apply (transition_table_shape (λ w : list nat, w) (λ w cur_time, (0, cur_time, w))
           (ex_machine true true true)).
  apply ex_machine_reachable.
Defined.

Lemma registration_keeps_edges_witness :
  (∃ more,
     _trans_tbl (register_transition (ex_machine true true true) st_A st_W (logs 4 true)).2
       !! st_A = Some (ex_edges true true true ++ more)
     ∧ (more = [] ∨ (st_A = st_A ∧ more = [(st_W, logs 4 true)])))
  ∧ (∃ more,
       _trans_tbl (build st_W ([(st_A, st_B, logs 1 true)]
                               ++ [(st_A, st_C, logs 2 true); (st_A, st_D, logs 3 true)]))
         !! st_A = Some ([(st_B, logs 1 true)] ++ more)).
Proof.
  split.
  - apply (proj1 registration_keeps_edges (ex_machine true true true)
             st_A st_W (logs 4 true) st_A (ex_edges true true true)).
    vm_compute. reflexivity.
  - apply (proj2 (@registration_keeps_edges nat _ _ (list nat)) st_W
             [(st_A, st_B, logs 1 true)]
             [(st_A, st_C, logs 2 true); (st_A, st_D, logs 3 true)]
             st_A [(st_B, logs 1 true)]).
    vm_compute. reflexivity.
Defined.

Lemma try_trigger_by_edge_set_witness :
  try_trigger (set_state (ex_machine true true true) st_W) ex_out []
  = mk_result (Threw invalid_state_error) (set_state (ex_machine true true true) st_W)
      ex_out []
  ∧ try_trigger (set_state (ex_machine true true true) st_B) ex_out []
    = mk_result (Returned true) (set_state (ex_machine true true true) st_B)
        (mk_out st_B st_B) []
  ∧ is_terminated_state (set_state (ex_machine true true true) st_A) st_A = false
  ∧ res_outcome (try_trigger (set_state (ex_machine true true true) st_A) ex_out [])
    ≠ Threw invalid_state_error.
Proof.
  assert (∀ e, e ∈ registered_edges (ex_machine true true true) →
               e = (st_A, st_B) ∨ e = (st_A, st_C) ∨ e = (st_A, st_D)) as Hedges.
  { intros e He. vm_compute in He. apply list_elem_of_In in He. simpl in He.
    destruct He as [ <- | [ <- | [ <- | [] ] ] ]; auto. }
  assert (Z.of_nat (length (registered_edges (ex_machine true true true)))
          <= Int32.max_signed) as Hlen by (by vm_compute).
  split_and!.
  - apply (proj1 (try_trigger_by_edge_set (λ w : list nat, w)
                    (λ w cur_time, (0, cur_time, w))
                    (ex_machine true true true) st_W ex_out []
                    (ex_machine_reachable true true true) Hlen)).
    intros e [ -> | [ -> | -> ] ]%Hedges; split; discriminate.
  - apply (proj1 (proj2 (try_trigger_by_edge_set (λ w : list nat, w)
                           (λ w cur_time, (0, cur_time, w))
                           (ex_machine true true true) st_B ex_out []
                           (ex_machine_reachable true true true) Hlen))).
    + intros e [ -> | [ -> | -> ] ]%Hedges; discriminate.
    + exists (st_A, st_B). split; [|reflexivity].
      vm_compute. apply list_elem_of_In. simpl. auto.
  - apply (proj2 (proj2 (try_trigger_by_edge_set (λ w : list nat, w)
                           (λ w cur_time, (0, cur_time, w))
                           (ex_machine true true true) st_A ex_out []
                           (ex_machine_reachable true true true) Hlen))).
    exists (st_A, st_B). split; [|reflexivity].
    vm_compute. apply list_elem_of_In. simpl. auto.
  - apply (proj2 (proj2 (try_trigger_by_edge_set (λ w : list nat, w)
                           (λ w cur_time, (0, cur_time, w))
                           (ex_machine true true true) st_A ex_out []
                           (ex_machine_reachable true true true) Hlen))).
    exists (st_A, st_B). split; [|reflexivity].
    vm_compute. apply list_elem_of_In. simpl. auto.
Defined.

Lemma triggers_move_along_edges_witness :
  moved_along_edge (ex_timed 1) (res_fsm (try_trigger (ex_timed 1) ex_out 1%nat))
  ∧ moved_along_edge (ex_timed 1) (set_state (ex_timed 1) st_B)
  ∧ moved_along_edge (ex_timed 100) (ex_timed 100).
Proof.
  split_and!.
  - apply (triggers_move_along_edges ex_yield ex_clock_gettime (ex_timed 1) ex_out 1%nat).
  - apply (proj1 (proj2 (triggers_move_along_edges ex_yield ex_clock_gettime
                           (ex_timed 1) ex_out 0%nat))
             2%nat (mk_result (Returned true) (set_state (ex_timed 1) st_B)
                      (mk_out st_A st_B) 1%nat)).
    vm_compute. reflexivity.
  - apply (proj2 (proj2 (triggers_move_along_edges ex_yield ex_clock_gettime
                           (ex_timed 100) ex_out 0%nat))
             3%nat (mk_timespec 3 0)
             (mk_result (Returned false) (ex_timed 100) ex_out 3%nat)).
    vm_compute. reflexivity.
Defined.

Lemma trigger_returns_witness :
  trigger ex_yield 3 (ex_timed 2) ex_out 0%nat
  = Some (mk_result (Returned true) (set_state (ex_timed 2) st_B) (mk_out st_A st_B) 2%nat)
  ∧ trigger ex_yield 2 (ex_timed 2) ex_out 0%nat = None
  ∧ res_outcome (mk_result (Returned true) (set_state (ex_timed 2) st_B)
                   (mk_out st_A st_B) 2%nat) ≠ Returned false.
Proof.
  split_and!.
  - apply (proj1 (trigger_returns ex_yield (ex_timed 2) ex_out 0%nat) 2%nat 2%nat 3%nat);
      [vm_compute; reflexivity | vm_compute; discriminate | lia].
  - apply (proj1 (proj2 (trigger_returns ex_yield (ex_timed 2) ex_out 0%nat))
             2%nat 2%nat 2%nat); [vm_compute; reflexivity | lia].
  - apply (proj2 (proj2 (trigger_returns ex_yield (ex_timed 2) ex_out 0%nat)) 3%nat).
    vm_compute. reflexivity.
Defined.

Lemma trigger_blocks_witness :
  trigger ex_yield 1000 ex_blocked ex_out 0%nat = None.
Proof.
  apply (trigger_blocks ex_yield ex_blocked ex_out).
  intros w. vm_compute. reflexivity.
Defined.

Lemma timed_trigger_propagates_witness :
  timed_trigger ex_yield ex_clock_gettime 0 (ex_overlap 0) ex_out 0%nat (mk_timespec 100 0)
  = Some (mk_result (Threw ambiguous_state_error) (ex_overlap 0) ex_out 0%nat)
  ∧ timed_trigger ex_yield ex_clock_gettime 2 (ex_overlap 2) ex_out 0%nat (mk_timespec 100 0)
    = Some (mk_result (Threw ambiguous_state_error) (ex_overlap 2) ex_out 2%nat)
  ∧ res_outcome (try_trigger (ex_overlap 2) ex_out 7%nat) ≠ Threw invalid_state_error.
Proof.
  split_and!.
  - apply (proj1 (timed_trigger_propagates ex_yield ex_clock_gettime
                    (ex_overlap 0) ex_out 0%nat (mk_timespec 100 0))
             ambiguous_state_error 0%nat).
    vm_compute. reflexivity.
  - apply (proj1 (proj2 (timed_trigger_propagates ex_yield ex_clock_gettime
                           (ex_overlap 2) ex_out 0%nat (mk_timespec 100 0)) eq_refl)
             ambiguous_state_error 1%nat (ex_overlap 2) ex_out 1%nat (mk_timespec 1 0)
             2%nat); [vm_compute; reflexivity | lia | vm_compute; reflexivity].
  - apply (proj2 (proj2 (timed_trigger_propagates ex_yield ex_clock_gettime
                           (ex_overlap 2) ex_out 0%nat (mk_timespec 100 0)) eq_refl)
             7%nat).
Defined.

Lemma is_timeout_fn_nanoseconds_witness :
  is_timeout_fn (mk_timespec 3 500000000) (mk_timespec 4 0) = true
  ↔ nanoseconds (mk_timespec 3 500000000) <= nanoseconds (mk_timespec 4 0).
Proof.
  apply (is_timeout_fn_nanoseconds (mk_timespec 3 500000000) (mk_timespec 4 0));
    unfold normalised; simpl; lia.
Defined.

Lemma try_trigger_order_independent_witness :
  let f := set_state (build st_W [(st_A, st_B, from_tick 0); (st_A, st_C, from_tick 5)]) st_A in
  let f' := set_state (build st_W [(st_A, st_C, from_tick 5); (st_A, st_B, from_tick 0)]) st_A in
  res_outcome (try_trigger f' ex_out 3%nat) = res_outcome (try_trigger f ex_out 3%nat)
  ∧ res_out (try_trigger f' ex_out 3%nat) = res_out (try_trigger f ex_out 3%nat)
  ∧ _state (res_fsm (try_trigger f' ex_out 3%nat))
    = _state (res_fsm (try_trigger f ex_out 3%nat))
  ∧ res_world (try_trigger f ex_out 3%nat) = 3%nat
  ∧ res_world (try_trigger f' ex_out 3%nat) = 3%nat.
Proof.
  apply (try_trigger_order_independent
           (set_state (build st_W [(st_A, st_B, from_tick 0); (st_A, st_C, from_tick 5)]) st_A)
           (set_state (build st_W [(st_A, st_C, from_tick 5); (st_A, st_B, from_tick 0)]) st_A)
           ex_out 3%nat
           [(st_B, from_tick 0); (st_C, from_tick 5)]
           [(st_C, from_tick 5); (st_B, from_tick 0)]).
  - reflexivity.
  - vm_compute. reflexivity.
  - vm_compute. reflexivity.
  - vm_compute. reflexivity.
  - apply perm_swap.
  - repeat constructor.
Defined.

Lemma try_trigger_stays_valid_witness :
  res_outcome (try_trigger (res_fsm (try_trigger (ex_machine false true false) ex_out []))
                 ex_out [])
  ≠ Threw invalid_state_error.
Proof.
  apply (try_trigger_stays_valid (λ w : list nat, w) (λ w cur_time, (0, cur_time, w))
           (ex_machine false true false) ex_out [] ex_out []).
  - apply ex_machine_reachable.
  - by vm_compute.
  - vm_compute. discriminate.
Defined.
